(** * hono-base: registration, grafting and dispatch of the Hono application

    A shallow embedding of [src/hono-base.ts].  Platform objects (Request,
    Response) are records; the application objects, their route arrays and
    their routers live in a store indexed by references, because the
    source shares them ([clone] hands the parent's router and routes array
    to the derived application).  Handlers are programs over the request
    context whose only way to reach the rest of the chain is to await
    [next()]. *)

From stdpp Require Import base option strings list gmap.
From Stdlib Require Import ZArith Ascii.

Local Open Scope string_scope.
Local Open Scope Z_scope.

(** ** Platform values *)

(** The parts of a [Response] the dispatcher can observe.  A [body] of
    [None] is the null body. *)
Record Response : Type := mkResponse {
  status : Z;
  statusText : string;
  headers : list (string * string);
  body : option string
}.

Record Request : Type := mkRequest {
  req_method : string;
  req_url : string;
  req_headers : list (string * string);
  req_body : option string
}.

(** Environment bindings and the execution context are opaque to this
    module: they are stored in the context and passed along.  [None] is
    an [undefined] value for the bindings. *)
Definition Bindings : Type := option (list (string * string)).
Definition ExecutionContext : Type := nat.

(** References to objects of the store. *)
Definition loc : Type := nat.

(** ** Thrown values *)

(** [err instanceof HTTPException] is the [HTTPException] kind; the
    exception carries the response that [getResponse()] returns. *)
Inductive ErrorKind : Type :=
| PlainError
| HTTPException (res : Response).

Record Error : Type := mkError {
  message : string;
  kind : ErrorKind
}.

(** JavaScript can throw any value; [ThrownError] is the case
    [err instanceof Error]. *)
Inductive Thrown : Type :=
| ThrownError (e : Error)
| ThrownValue (v : string).

(** ** Request context *)

Record HonoRequest : Type := mkHonoRequest {
  raw : Request;
  path : string;
  params : list (list (string * string))
}.

Definition url (r : HonoRequest) : string := req_url (raw r).

(** Modelled from the spec: the class [Context] of [./context] is not in
    [src/].  Section 3 of the spec gives it the incoming request, the
    environment bindings, the execution-context handle, a mutable response
    slot and the [finalized] flag. *)
Record Context : Type := mkContext {
  req : HonoRequest;
  env : Bindings;
  executionCtx : option ExecutionContext;
  res : option Response;
  finalized : bool
}.

(** Modelled from the spec: [new Context(req, { env, executionCtx, .. })]
    of [./context]; a context starts with no response and not finalized. *)
Definition new_Context (r : HonoRequest) (e : Bindings)
    (x : option ExecutionContext) : Context :=
  {| req := r; env := e; executionCtx := x; res := None; finalized := false |}.

(** Modelled from the spec: the setter [c.res = r] of [./context];
    assigning the response finalizes the context. *)
Definition set_res (r : Response) (c : Context) : Context :=
  {| req := req c; env := env c; executionCtx := executionCtx c;
     res := Some r; finalized := true |}.

(** Modelled from the spec: [c.text(body, status)] of [./context], a
    plain-text response with the given status. *)
Definition text (c : Context) (b : string) (s : Z) : Response :=
  {| status := s; statusText := "";
     headers := [("Content-Type", "text/plain; charset=UTF-8")];
     body := Some b |}.

(** ** Error and not-found handlers *)

(** [route] compares [app.errorHandler === errorHandler], so a handler
    is either the module's own function or one installed by the user. *)
Inductive ErrorHandler : Type :=
| DefaultErrorHandler
| CustomErrorHandler (f : Error -> Context -> Response).

Inductive NotFoundHandler : Type :=
| DefaultNotFoundHandler
| CustomNotFoundHandler (f : Context -> Response).

(** [const notFoundHandler = (c) => c.text('404 Not Found', 404)] *)
Definition notFoundHandler (c : Context) : Response :=
  text c "404 Not Found" 404.

(** Modelled from the spec: [err.getResponse()] of [./http-exception]
    returns the response the exception carries. *)
Definition getResponse (r : Response) : Response := r.

(** [const errorHandler = (err, c) => ...]; the [console.error] call has
    no effect on the result. *)
Definition errorHandler (err : Error) (c : Context) : Response :=
  match kind err with
  | HTTPException r => getResponse r
  | PlainError => text c "Internal Server Error" 500
  end.

Definition call_errorHandler (h : ErrorHandler) (err : Error) (c : Context)
    : Response :=
  match h with
  | DefaultErrorHandler => errorHandler err c
  | CustomErrorHandler f => f err c
  end.

Definition call_notFoundHandler (h : NotFoundHandler) (c : Context)
    : Response :=
  match h with
  | DefaultNotFoundHandler => notFoundHandler c
  | CustomNotFoundHandler f => f c
  end.

(** ** Handler programs *)

(** The body of a handler [(c, next) => ...]: it reads the context,
    assigns [c.res], awaits [next()] (and sees whether that promise was
    rejected, as under [try]/[catch]), reads the error handler currently
    installed on an application object, and ends by returning or throwing.
    A call of [next()] whose promise is left floating is outside the
    model. *)
Inductive Prog (A : Type) : Type :=
| Ret (a : A)
| Throw (t : Thrown)
| GetContext (k : Context -> Prog A)
| SetRes (r : Response) (k : Prog A)
| AwaitNext (k : option Thrown -> Prog A)
| ErrorHandlerOf (app : loc) (k : ErrorHandler -> Prog A).

Arguments Ret {A} a.
Arguments Throw {A} t.
Arguments GetContext {A} k.
Arguments SetRes {A} r k.
Arguments AwaitNext {A} k.
Arguments ErrorHandlerOf {A} app k.

(** How a call or an awaited promise ends. *)
Inductive Completion (A : Type) : Type :=
| Normal (a : A)
| Abrupt (t : Thrown).

Arguments Normal {A} a.
Arguments Abrupt {A} t.

(** What [await next()] does to the context, and whether it rejects. *)
Definition Next : Type := Context -> option Thrown * Context.

(** Running a program: [ehs] gives the error handler installed on each
    application object, [next] is the continuation the handler was
    called with. *)
Fixpoint exec {A : Type} (ehs : loc -> ErrorHandler) (next : Next)
    (p : Prog A) (c : Context) : Completion A * Context :=
  match p with
  | Ret a => (Normal a, c)
  | Throw t => (Abrupt t, c)
  | GetContext k => exec ehs next (k c) c
  | SetRes r k => exec ehs next k (set_res r c)
  | AwaitNext k =>
      let '(o, c') := next c in exec ehs next (k o) c'
  | ErrorHandlerOf app k => exec ehs next (k (ehs app)) c
  end.

(** Sequencing with both exits: run [p], then continue with [kn] on a
    normal end and with [ka] on a throw ([try { v = await p } catch ..]). *)
Fixpoint seq_catch {A B : Type} (p : Prog A) (kn : A -> Prog B)
    (ka : Thrown -> Prog B) : Prog B :=
  match p with
  | Ret a => kn a
  | Throw t => ka t
  | GetContext k => GetContext (fun c => seq_catch (k c) kn ka)
  | SetRes r k => SetRes r (seq_catch k kn ka)
  | AwaitNext k => AwaitNext (fun o => seq_catch (k o) kn ka)
  | ErrorHandlerOf app k => ErrorHandlerOf app (fun h => seq_catch (k h) kn ka)
  end.

Definition bind {A B : Type} (p : Prog A) (k : A -> Prog B) : Prog B :=
  seq_catch p k Throw.

(** A handler function: whether calling it yields a promise (an [async]
    function, or one that returns [next()]), its body, and the property
    stored under the [COMPOSED_HANDLER] symbol, if any. *)
#[warnings="-register-all"]
Inductive Handler : Type := mkHandler {
  returnsPromise : bool;
  handler_body : Prog (option Response);
  COMPOSED_HANDLER : option Handler
}.

Record RouterRoute : Type := mkRouterRoute {
  route_path : string;
  route_method : string;
  route_handler : Handler
}.

(** The first component of what [router.match] returns: the matched
    payloads [[handler, route]] with their path parameters, in order. *)
Definition MatchResult : Type :=
  list ((Handler * RouterRoute) * list (string * string)).

(** ** Collaborators that are imported but not part of this module *)

(** The functions imported from [./utils/url].  Their code is not in
    [src/]; the application is defined over any implementation. *)
Class UrlUtils : Type := {
  mergePath : string -> string -> string;
  getPath : Request -> Bindings -> string;
  getPathNoStrict : Request -> Bindings -> string;
  getQueryStrings : string -> string
}.

(** The constants imported from [./router]. *)
Class RouterNames : Type := {
  METHODS : list string;
  METHOD_NAME_ALL : string;
  METHOD_NAME_ALL_LOWERCASE : string
}.

(** The [Router] interface: [add(method, path, [handler, route])] and
    [match(method, path)], over a router state [R]. *)
Class Router (R : Type) : Type := {
  router_add : string -> string -> Handler * RouterRoute -> R -> R;
  router_match : string -> string -> R -> MatchResult
}.

(** [compose(middleware, onError, onNotFound)] gives a function of the
    context and of an optional trailing continuation; the composed
    function is a program that ends with the context it was given. *)
Class Compose : Type :=
  compose : MatchResult -> option ErrorHandler -> option NotFoundHandler ->
            option (Prog (option Response)) -> Prog unit.

(** ** The composition engine, from the spec *)

(** Modelled from the spec: the error of the re-entrancy rule of
    section 4.3 ([compose] of [./compose] is not in [src/]). *)
Definition multiple_next_error : Error :=
  {| message := "next() called multiple times"; kind := PlainError |}.

(** Modelled from the spec: part of [compose] of [./compose], which is
    not in [src/].  Section 3: a handler's returned response becomes
    the context's response, and a finalized context's response is not
    overwritten. *)
Definition keep_result (v : option Response) : Prog unit :=
  match v with
  | Some r => GetContext (fun c => if finalized c then Ret tt else SetRes r (Ret tt))
  | None => Ret tt
  end.

(** Modelled from the spec: part of [compose] of [./compose], which is
    not in [src/].  Section 4.3: the body [p] of one step with its
    [next()] bound to the remainder [rest] of the chain; a second call
    of [next()] in the same step is rejected. *)
Fixpoint link {A : Type} (called : bool) (rest : Prog unit) (p : Prog A)
    : Prog A :=
  match p with
  | Ret a => Ret a
  | Throw t => Throw t
  | GetContext k => GetContext (fun c => link called rest (k c))
  | SetRes r k => SetRes r (link called rest k)
  | AwaitNext k =>
      if called
      then link true rest (k (Some (ThrownError multiple_next_error)))
      else seq_catch rest (fun _ => link true rest (k None))
                          (fun t => link true rest (k (Some t)))
  | ErrorHandlerOf app k => ErrorHandlerOf app (fun h => link called rest (k h))
  end.

(** Modelled from the spec: part of [compose] of [./compose], which is
    not in [src/].  Section 4.3, the end of the chain: the trailing
    continuation when one was given, otherwise the not-found handler,
    whose result is assigned if the response is still unset. *)
Definition chain_end (onNotFound : option NotFoundHandler)
    (next : option (Prog (option Response))) : Prog unit :=
  match next with
  | Some p => bind p keep_result
  | None =>
      GetContext (fun c =>
        if finalized c then Ret tt
        else match onNotFound with
             | Some nf => SetRes (call_notFoundHandler nf c) (Ret tt)
             | None => Ret tt
             end)
  end.

(** Modelled from the spec: part of [compose] of [./compose], which is
    not in [src/].  Section 4.3: the handlers in order, each with the
    rest of the chain as its [next()]. *)
Fixpoint chain (hs : MatchResult) (onNotFound : option NotFoundHandler)
    (next : option (Prog (option Response))) : Prog unit :=
  match hs with
  | [] => chain_end onNotFound next
  | ((h, _), _) :: rest =>
      bind (link false (chain rest onNotFound next) (handler_body h)) keep_result
  end.

(** Modelled from the spec: part of [compose] of [./compose], which is
    not in [src/].  Sections 4.3 and 7, the top-level catch: an [Error]
    goes to [onError], whose result is assigned to the context; any
    other thrown value is thrown again. *)
Definition on_throw (onError : option ErrorHandler) (t : Thrown) : Prog unit :=
  match t, onError with
  | ThrownError e, Some eh =>
      GetContext (fun c => SetRes (call_errorHandler eh e c) (Ret tt))
  | _, _ => Throw t
  end.

(** Modelled from the spec: [compose] of [./compose] is not in [src/].
    Section 4.3: handlers run in order, [next()] of step [i] runs step
    [i+1], [next()] of the last step runs the not-found handler and
    assigns its result if the response is unset, a handler that does not
    call [next()] ends the chain, a throw is caught at the top level and
    handed to the error handler, and a second [next()] in one step fails.
    The trailing continuation is the second argument that [route] passes
    to the composed function. *)
Definition compose_model : Compose :=
  fun hs onError onNotFound next =>
    seq_catch (chain hs onNotFound next) Ret (on_throw onError).

(** ** Strings of the platform *)

Definition upper_ascii (a : Ascii.ascii) : Ascii.ascii :=
  let n := Ascii.nat_of_ascii a in
  if (Nat.leb 97 n && Nat.leb n 122)%bool
  then Ascii.ascii_of_nat (n - 32) else a.

(** [s.toUpperCase()], on the ASCII letters. *)
Fixpoint toUpperCase (s : string) : string :=
  match s with
  | EmptyString => EmptyString
  | String a s' => String (upper_ascii a) (toUpperCase s')
  end.

(** [s.slice(start)] for a start index that is not negative. *)
Fixpoint slice (start : nat) (s : string) : string :=
  match start, s with
  | O, _ => s
  | S n, EmptyString => EmptyString
  | S n, String _ s' => slice n s'
  end.

(** [s || '/']: the empty string is falsy. *)
Definition or_slash (s : string) : string :=
  if decide (s = "") then "/" else s.

(** [/^https?:\/\//.test(s)] *)
Definition is_http_url (s : string) : bool :=
  String.prefix "http://" s || String.prefix "https://" s.

(** [[x].flat()] for [x : string | string[]]. *)
Definition flat1 (x : string + list string) : list string :=
  match x with
  | inl s => [s]
  | inr l => l
  end.

(** ** Values handed to a mounted application *)

(** What [optionHandler(c)] may return, and the default pair
    [[c.env, executionContext]]. *)
#[warnings="-register-all"]
Inductive Value : Type :=
| VBindings (b : Bindings)
| VExecutionContext (x : option ExecutionContext)
| VArray (l : list Value)
| VOther (s : string).

(** [new Request(new URL(target, base), init)]: the URL that
    [new URL] resolved, and the request it is copied from. *)
Record MountedRequest : Type := mkMountedRequest {
  mounted_url : string;
  mounted_init : Request
}.

(** A foreign request handler: it returns a response or a falsy value,
    or throws. *)
Definition ApplicationHandler : Type :=
  MountedRequest -> list Value -> Completion (option Response).

(** The [RequestInit] dictionary is opaque here. *)
Definition RequestInit : Type := list (string * string).

(** The two uses of the platform's [Request] constructor in [request],
    and [new URL(url, base)] of [mount], which resolves the reference
    [url] against [base] and is read here as the resolved URL. *)
Class Platform : Type := {
  new_Request : string -> option RequestInit -> Request;
  copy_Request : Request -> RequestInit -> Request;
  new_URL : string -> string -> string
}.

(** ** The application object *)

Definition GetPath : Type := Request -> Bindings -> string.

(** The fields of a [Hono] object: [router], [getPath], [_basePath],
    [#path], [routes], [notFoundHandler] and [errorHandler]; the prefix
    keeps them apart from the functions of the same names. *)
Record Hono : Type := mkHono {
  app_router : loc;
  app_getPath : GetPath;
  app_basePath : string;
  app_path : string;
  app_routes : loc;
  app_notFoundHandler : NotFoundHandler;
  app_errorHandler : ErrorHandler
}.

#[global] Instance Hono_inhabited : Inhabited Hono :=
  populate (mkHono 0%nat (fun _ _ => "") "/" "/" 0%nat
                   DefaultNotFoundHandler DefaultErrorHandler).

(** [HonoOptions].  The class is abstract and expects the inheriting
    constructor to install the router, so the router is always given. *)
Record HonoOptions : Type := mkHonoOptions {
  opt_strict : option bool;
  opt_router : loc;
  opt_getPath : option GetPath
}.

(** The store: application objects, route arrays and routers, by
    reference. *)
Record Store (R : Type) : Type := mkStore {
  apps : gmap loc Hono;
  arrays : gmap loc (list RouterRoute);
  routers : gmap loc R
}.

Arguments mkStore {R} apps arrays routers.
Arguments apps {R} s.
Arguments arrays {R} s.
Arguments routers {R} s.

(** The error [dispatch] raises when the chain ends and the context is
    not finalized. *)
Definition unfinalized_error : Error :=
  {| message :=
       "Context is not finalized. You may forget returning Response object or `await next()`";
     kind := PlainError |}.

(** [new Response(null, init)] where [init] is a response or
    [undefined]: status, status text and headers are taken from [init],
    the body is null. *)
Definition new_Response_null (init : option Response) : Response :=
  match init with
  | Some r => {| status := status r; statusText := statusText r;
                 headers := headers r; body := None |}
  | None => {| status := 200; statusText := ""; headers := []; body := None |}
  end.

(** ** The class [Hono] *)

Section HonoBase.
Context {U : UrlUtils} {N : RouterNames} {P : Platform}.
Context {R : Type} {Rt : Router R} {C : Compose}.

(** Methods that change objects thread the store. *)
Definition M (A : Type) : Type := Store R -> A * Store R.

#[global] Instance M_ret : MRet M := fun A a σ => (a, σ).
#[global] Instance M_bind : MBind M :=
  fun A B k m σ => let '(a, σ') := m σ in k a σ'.

Definition get_app (this : loc) : M Hono :=
  fun σ => (apps σ !!! this, σ).

Definition set_app (this : loc) (f : Hono -> Hono) : M unit :=
  fun σ => (tt, mkStore (<[this := f (apps σ !!! this)]> (apps σ))
                        (arrays σ) (routers σ)).

Definition get_array (a : loc) : M (list RouterRoute) :=
  fun σ => (arrays σ !!! a, σ).

Fixpoint for_each {A : Type} (l : list A) (f : A -> M unit) : M unit :=
  match l with
  | [] => mret tt
  | x :: l' => f x ≫= fun _ => for_each l' f
  end.

Definition with_path (p : string) (a : Hono) : Hono :=
  mkHono (app_router a) (app_getPath a) (app_basePath a) p (app_routes a)
         (app_notFoundHandler a) (app_errorHandler a).

Definition with_basePath (p : string) (a : Hono) : Hono :=
  mkHono (app_router a) (app_getPath a) p (app_path a) (app_routes a)
         (app_notFoundHandler a) (app_errorHandler a).

Definition with_routes (l : loc) (a : Hono) : Hono :=
  mkHono (app_router a) (app_getPath a) (app_basePath a) (app_path a) l
         (app_notFoundHandler a) (app_errorHandler a).

Definition with_notFoundHandler (h : NotFoundHandler) (a : Hono) : Hono :=
  mkHono (app_router a) (app_getPath a) (app_basePath a) (app_path a)
         (app_routes a) h (app_errorHandler a).

Definition with_errorHandler (h : ErrorHandler) (a : Hono) : Hono :=
  mkHono (app_router a) (app_getPath a) (app_basePath a) (app_path a)
         (app_routes a) (app_notFoundHandler a) h.

(** [constructor(options)]: the field initialisers, then the choice of
    the path extractor.  The registration functions the constructor
    installs are [verb], [on] and [use] below. *)
Definition new_Hono (options : HonoOptions) : M loc :=
  fun σ =>
    let this := fresh (dom (apps σ)) in
    let routes := fresh (dom (arrays σ)) in
    let strict := default true (opt_strict options) in
    let app :=
      {| app_router := opt_router options;
         app_getPath :=
           if strict then default getPath (opt_getPath options)
           else getPathNoStrict;
         app_basePath := "/";
         app_path := "/";
         app_routes := routes;
         app_notFoundHandler := DefaultNotFoundHandler;
         app_errorHandler := DefaultErrorHandler |} in
    (this, mkStore (<[this := app]> (apps σ))
                   (<[routes := []]> (arrays σ)) (routers σ)).

(** [private clone()] *)
Definition clone (this : loc) : M loc :=
  app ← get_app this;
  clone ← new_Hono {| opt_strict := None; opt_router := app_router app;
                      opt_getPath := Some (app_getPath app) |};
  _ ← set_app clone (with_routes (app_routes app));
  mret clone.

(** [private addRoute(method, path, handler)] *)
Definition addRoute (this : loc) (method path : string) (handler : Handler)
    : M unit :=
  fun σ =>
    let app := apps σ !!! this in
    let method := toUpperCase method in
    let path := mergePath (app_basePath app) path in
    let r := {| route_path := path; route_method := method;
                route_handler := handler |} in
    let routers' :=
      alter (router_add method path (handler, r)) (app_router app) (routers σ) in
    let arrays' :=
      <[app_routes app := ((arrays σ !!! app_routes app) ++ [r])%list]>
        (arrays σ) in
    (tt, mkStore (apps σ) arrays' routers').

(** [this[method] = (args1, ...args) => ...] for each method name of
    [[...METHODS, METHOD_NAME_ALL_LOWERCASE]]. *)
Definition verb (this : loc) (method : string) (args1 : string + Handler)
    (args : list (string + Handler)) : M loc :=
  _ ← match args1 with
      | inl p => set_app this (with_path p)
      | inr h => app ← get_app this; addRoute this method (app_path app) h
      end;
  _ ← for_each args (fun a =>
        match a with
        | inr handler =>
            app ← get_app this; addRoute this method (app_path app) handler
        | inl _ => mret tt
        end);
  mret this.

(** [this.on = (method, path, ...handlers) => ...]; [!method] holds for
    the empty string only. *)
Definition on (this : loc) (method path : string + list string)
    (handlers : list Handler) : M loc :=
  if decide (method = inl "") then mret this
  else
    _ ← for_each (flat1 path) (fun p =>
          _ ← set_app this (with_path p);
          for_each (flat1 method) (fun m =>
            for_each handlers (fun handler =>
              app ← get_app this;
              addRoute this (toUpperCase m) (app_path app) handler)));
    mret this.

(** [this.use = (arg1, ...handlers) => ...] *)
Definition use (this : loc) (arg1 : string + Handler)
    (handlers : list Handler) : M loc :=
  handlers ← match arg1 with
             | inl p => _ ← set_app this (with_path p); mret handlers
             | inr h => _ ← set_app this (with_path "*"); mret (h :: handlers)
             end;
  _ ← for_each handlers (fun handler =>
        app ← get_app this;
        addRoute this METHOD_NAME_ALL (app_path app) handler);
  mret this.

(** [basePath(path)] *)
Definition basePath (this : loc) (path : string) : M loc :=
  subApp ← clone this;
  app ← get_app this;
  _ ← set_app subApp (with_basePath (mergePath (app_basePath app) path));
  mret subApp.

(** The handler [route] builds for a sub-application with its own
    error handler:
    [async (c, next) =>
       (await compose([], app.errorHandler)(c, () => r.handler(c, next))).res]
    with [handler[COMPOSED_HANDLER] = r.handler]. *)
Definition composed_handler (app : loc) (r : RouterRoute) : Handler :=
  {| returnsPromise := true;
     handler_body :=
       ErrorHandlerOf app (fun eh =>
         bind (compose [] (Some eh) None (Some (handler_body (route_handler r))))
              (fun _ => GetContext (fun c => Ret (res c))));
     COMPOSED_HANDLER := Some (route_handler r) |}.

(** [route(path, app)] *)
Definition route (this : loc) (path : string) (app : option loc) : M loc :=
  subApp ← basePath this path;
  match app with
  | None => mret subApp
  | Some app =>
      a ← get_app app;
      routes ← get_array (app_routes a);
      _ ← for_each routes (fun r =>
            a ← get_app app;
            let handler :=
              match app_errorHandler a with
              | DefaultErrorHandler => route_handler r
              | CustomErrorHandler _ => composed_handler app r
              end in
            addRoute subApp (route_method r) (route_path r) handler);
      mret this
  end.

(** [onError = (handler) => ...] *)
Definition onError (this : loc) (handler : Error -> Context -> Response)
    : M loc :=
  _ ← set_app this (with_errorHandler (CustomErrorHandler handler));
  mret this.

(** [notFound = (handler) => ...] *)
Definition notFound (this : loc) (handler : Context -> Response) : M loc :=
  _ ← set_app this (with_notFoundHandler (CustomNotFoundHandler handler));
  mret this.

(** The handler [mount] registers.  [c.executionCtx] throws when the
    context has none, which leaves [executionContext] undefined. *)
Definition mount_handler (pathPrefixLength : nat)
    (applicationHandler : ApplicationHandler)
    (optionHandler : option (Context -> Value)) : Handler :=
  {| returnsPromise := true;
     handler_body :=
       GetContext (fun c =>
         let executionContext := executionCtx c in
         let options :=
           match optionHandler with
           | Some f => f c
           | None => VArray [VBindings (env c); VExecutionContext executionContext]
           end in
         let optionsArray :=
           match options with
           | VArray l => l
           | v => [v]
           end in
         let queryStrings := getQueryStrings (url (req c)) in
         match applicationHandler
                 {| mounted_url :=
                      new_URL (or_slash (slice pathPrefixLength (path (req c)))
                               +:+ queryStrings)
                              (url (req c));
                    mounted_init := raw (req c) |}
                 optionsArray with
         | Abrupt t => Throw t
         | Normal (Some res) => Ret (Some res)
         | Normal None =>
             AwaitNext (fun o =>
               match o with
               | Some t => Throw t
               | None => Ret None
               end)
         end);
     COMPOSED_HANDLER := None |}.

(** [mount(path, applicationHandler, optionHandler)] *)
Definition mount (this : loc) (path : string)
    (applicationHandler : ApplicationHandler)
    (optionHandler : option (Context -> Value)) : M loc :=
  app ← get_app this;
  let mergedPath := mergePath (app_basePath app) path in
  let pathPrefixLength :=
    if decide (mergedPath = "/") then 0%nat else String.length mergedPath in
  let handler := mount_handler pathPrefixLength applicationHandler optionHandler in
  _ ← addRoute this METHOD_NAME_ALL (mergePath path "*") handler;
  mret this.

(** [private matchRoute(method, path)]; an application whose router
    reference is dangling matches nothing. *)
Definition matchRoute (σ : Store R) (this : loc) (method path : string)
    : MatchResult :=
  match routers σ !! app_router (apps σ !!! this) with
  | Some rt => router_match method path rt
  | None => []
  end.

(** [private handleError(err, c)] *)
Definition handleError (σ : Store R) (this : loc) (err : Thrown) (c : Context)
    : Completion (option Response) :=
  match err with
  | ThrownError e =>
      Normal (Some (call_errorHandler (app_errorHandler (apps σ !!! this)) e c))
  | _ => Abrupt err
  end.

(** The error handler each application object holds while a request is
    served. *)
Definition error_handlers (σ : Store R) : loc -> ErrorHandler :=
  fun l => app_errorHandler (apps σ !!! l).

(** [async () => { c.res = await this.notFoundHandler(c) }] *)
Definition single_next (nf : NotFoundHandler) : Next :=
  fun c => (None, set_res (call_notFoundHandler nf c) c).

(** The composed function is called as [composed(c)], with no
    continuation of its own. *)
Definition no_next : Next := fun c => (None, c).

(** The branch [if (matchResult[0].length === 1)] of [dispatch]: a
    result that is not a promise is returned as it is; a promise is
    continued with [resolved || (c.finalized ? c.res : notFoundHandler(c))]
    and its rejection goes to [handleError]. *)
Definition dispatch_single (σ : Store R) (this : loc) (h : Handler)
    (c : Context) : Completion (option Response) :=
  let nf := app_notFoundHandler (apps σ !!! this) in
  match exec (error_handlers σ) (single_next nf) (handler_body h) c with
  | (Abrupt err, c') => handleError σ this err c'
  | (Normal result, c') =>
      if returnsPromise h then
        match result with
        | Some resolved => Normal (Some resolved)
        | None =>
            if finalized c' then Normal (res c')
            else Normal (Some (call_notFoundHandler nf c'))
        end
      else Normal result
  end.

(** The rest of [dispatch]: the composed chain. *)
Definition dispatch_composed (σ : Store R) (this : loc)
    (matchResult : MatchResult) (c : Context) : Completion (option Response) :=
  let app := apps σ !!! this in
  let composed :=
    compose matchResult (Some (app_errorHandler app))
            (Some (app_notFoundHandler app)) None in
  match exec (error_handlers σ) no_next composed c with
  | (Normal _, context) =>
      if finalized context then Normal (res context)
      else handleError σ this (ThrownError unfinalized_error) context
  | (Abrupt err, c') => handleError σ this err c'
  end.

(** [dispatch] after the test for HEAD. *)
Definition dispatch_method (σ : Store R) (this : loc) (request : Request)
    (executionCtx : option ExecutionContext) (env : Bindings)
    (method : string) : Completion (option Response) :=
  let path := app_getPath (apps σ !!! this) request env in
  let matchResult := matchRoute σ this method path in
  let c := new_Context (mkHonoRequest request path (map snd matchResult))
                       env executionCtx in
  match matchResult with
  | [((h, _), _)] => dispatch_single σ this h c
  | _ => dispatch_composed σ this matchResult c
  end.

(** [private dispatch(request, executionCtx, env, method)].  The
    recursive call for HEAD passes the literal ['GET'], which fails
    the HEAD test, so the recursion is unfolded once. *)
Definition dispatch (σ : Store R) (this : loc) (request : Request)
    (executionCtx : option ExecutionContext) (env : Bindings)
    (method : string) : Completion (option Response) :=
  if decide (method = "HEAD") then
    match dispatch_method σ this request executionCtx env "GET" with
    | Normal init => Normal (Some (new_Response_null init))
    | Abrupt t => Abrupt t
    end
  else dispatch_method σ this request executionCtx env method.

(** [fetch = (request, ...rest) => ...] *)
Definition fetch (σ : Store R) (this : loc) (request : Request)
    (Env : Bindings) (executionCtx : option ExecutionContext)
    : Completion (option Response) :=
  dispatch σ this request executionCtx Env (req_method request).

(** [request = (input, requestInit, Env, executionCtx) => ...] *)
Definition request (σ : Store R) (this : loc) (input : Request + string)
    (requestInit : option RequestInit) (Env : Bindings)
    (executionCtx : option ExecutionContext) : Completion (option Response) :=
  match input with
  | inl input =>
      let input :=
        match requestInit with
        | Some init => copy_Request input init
        | None => input
        end in
      fetch σ this input Env executionCtx
  | inr input =>
      let path :=
        if is_http_url input then input
        else "http://localhost" +:+ mergePath "/" input in
      let req := new_Request path requestInit in
      fetch σ this req Env executionCtx
  end.

(** [fire = () => ...]: what the listener that [fire] adds answers to
    a fetch event, [this.dispatch(event.request, event, undefined,
    event.request.method)]. *)
Definition fire_listener (σ : Store R) (this : loc) (event_request : Request)
    (event : ExecutionContext) : Completion (option Response) :=
  dispatch σ this event_request (Some event) None (req_method event_request).

End HonoBase.

(** ** Operations of an application, as a transition system *)

Section Operations.
Context {U : UrlUtils} {N : RouterNames} {P : Platform}.
Context {R : Type} {Rt : Router R} {C : Compose}.

(** The calls a program can make on application objects. *)
Inductive Op : Type :=
| OpNew (options : HonoOptions)
| OpVerb (this : loc) (method : string) (args1 : string + Handler)
         (args : list (string + Handler))
| OpOn (this : loc) (method path : string + list string)
       (handlers : list Handler)
| OpUse (this : loc) (arg1 : string + Handler) (handlers : list Handler)
| OpRoute (this : loc) (path : string) (app : option loc)
| OpBasePath (this : loc) (path : string)
| OpOnError (this : loc) (handler : Error -> Context -> Response)
| OpNotFound (this : loc) (handler : Context -> Response)
| OpMount (this : loc) (path : string)
          (applicationHandler : ApplicationHandler)
          (optionHandler : option (Context -> Value))
| OpFetch (this : loc) (request : Request) (Env : Bindings)
          (executionCtx : option ExecutionContext)
| OpRequest (this : loc) (input : Request + string)
            (requestInit : option RequestInit) (Env : Bindings)
            (executionCtx : option ExecutionContext)
| OpFire (this : loc) (event_request : Request) (event : ExecutionContext).

(** The store after an operation.  Serving a request reads the store
    and leaves it as it is. *)
Definition step (op : Op) (σ : Store R) : Store R :=
  match op with
  | OpNew options => (new_Hono options σ).2
  | OpVerb this method args1 args => (verb this method args1 args σ).2
  | OpOn this method path handlers => (on this method path handlers σ).2
  | OpUse this arg1 handlers => (use this arg1 handlers σ).2
  | OpRoute this path app => (route this path app σ).2
  | OpBasePath this path => (basePath this path σ).2
  | OpOnError this handler => (onError this handler σ).2
  | OpNotFound this handler => (notFound this handler σ).2
  | OpMount this path applicationHandler optionHandler =>
      (mount this path applicationHandler optionHandler σ).2
  | OpFetch this request Env executionCtx =>
      let _ := fetch σ this request Env executionCtx in σ
  | OpRequest this input requestInit Env executionCtx =>
      let _ := request σ this input requestInit Env executionCtx in σ
  | OpFire this event_request event =>
      let _ := fire_listener σ this event_request event in σ
  end.

(** Every array of the first store is still there in the second, with
    its entries in place and possibly more after them. *)
Definition grows (σ σ' : Store R) : Prop :=
  forall (a : loc) (l : list RouterRoute),
    arrays σ !! a = Some l ->
    exists l', arrays σ' !! a = Some (l ++ l')%list.

End Operations.

(** The application object a constructor call leaves in the store. *)
Definition constructed {U : UrlUtils} {R : Type} (options : HonoOptions)
    (σ : Store R) : Hono :=
  let '(this, σ') := new_Hono options σ in apps σ' !!! this.

(** The application object [basePath] makes from [app]. *)
Definition derived {U : UrlUtils} (app : Hono) (path : string) : Hono :=
  {| app_router := app_router app;
     app_getPath := app_getPath app;
     app_basePath := mergePath (app_basePath app) path;
     app_path := "/";
     app_routes := app_routes app;
     app_notFoundHandler := DefaultNotFoundHandler;
     app_errorHandler := DefaultErrorHandler |}.

(** Registering [q] on the application derived by [basePath(p)] and
    registering [mergePath(p, q)] on the application itself: the
    derivative holds the parent's route array and router, both
    registrations put the same record at the end of that array, and
    they leave the routers in the same state. *)
Definition registers_alike {U : UrlUtils} {R : Type} {Rt : Router R}
    (σ : Store R) (this : loc) (app : Hono) (p q method : string)
    (handler : Handler) : Prop :=
  let subApp := (basePath this p σ).1 in
  let σ1 := (basePath this p σ).2 in
  let on_derived := (addRoute subApp method q handler σ1).2 in
  let direct := (addRoute this method (mergePath p q) handler σ).2 in
  let r := mkRouterRoute (mergePath (app_basePath app) (mergePath p q))
                         (toUpperCase method) handler in
  (app_routes (apps σ1 !!! subApp) = app_routes app /\
   app_router (apps σ1 !!! subApp) = app_router app) /\
  arrays on_derived !!! app_routes app
  = ((arrays σ !!! app_routes app) ++ [r])%list /\
  arrays direct !!! app_routes app
  = ((arrays σ !!! app_routes app) ++ [r])%list /\
  (arrays on_derived !!! app_routes (apps on_derived !!! this)
   = arrays on_derived !!! app_routes (apps on_derived !!! subApp)) /\
  routers on_derived = routers direct.

(** The record [route] registers for the record [r] of the grafted
    application [app], whose error handler is [eh], under the base path
    [base] of the derivative. *)
Definition grafted {U : UrlUtils} {C : Compose} (app : loc) (eh : ErrorHandler)
    (base : string) (r : RouterRoute) : RouterRoute :=
  {| route_path := mergePath base (route_path r);
     route_method := toUpperCase (route_method r);
     route_handler :=
       match eh with
       | DefaultErrorHandler => route_handler r
       | CustomErrorHandler _ => composed_handler app r
       end |}.

(** The handler awaits [next()] only while the context is not
    finalized. *)
Fixpoint awaits_next_unfinalized {A : Type} (ehs : loc -> ErrorHandler)
    (next : Next) (p : Prog A) (c : Context) : bool :=
  match p with
  | Ret _ => true
  | Throw _ => true
  | GetContext k => awaits_next_unfinalized ehs next (k c) c
  | SetRes r k => awaits_next_unfinalized ehs next k (set_res r c)
  | AwaitNext k =>
      negb (finalized c) &&
      (let '(o, c') := next c in awaits_next_unfinalized ehs next (k o) c')
  | ErrorHandlerOf app k => awaits_next_unfinalized ehs next (k (ehs app)) c
  end.

(** The ways a single handler can end for which the direct call and
    the composed chain give the same result: it throws; it returns a
    response while the context is not finalized, or the response the
    context already holds; or it returns a promise of nothing with the
    context finalized. *)
Definition paths_agree_on (h : Handler) (o : Completion (option Response))
    (c' : Context) : Prop :=
  match o with
  | Abrupt _ => True
  | Normal (Some r) => finalized c' = false \/ res c' = Some r
  | Normal None => returnsPromise h = true /\ finalized c' = true
  end.

(** ** Instances for the examples *)

Definition starts_with_slash (s : string) : bool :=
  match s with
  | String a _ => Ascii.eqb a "/"%char
  | EmptyString => false
  end.

Definition ensure_leading_slash (s : string) : string :=
  if starts_with_slash s then s else String "/"%char s.

(** The string without its last character when that is a slash. *)
Fixpoint strip_trailing_slash (s : string) : string :=
  match s with
  | EmptyString => EmptyString
  | String a s' =>
      if Ascii.eqb a "/"%char && bool_decide (s' = EmptyString)
      then EmptyString
      else String a (strip_trailing_slash s')
  end.

(** Modelled from the spec: [mergePath] of [./utils/url] is not in
    [src/].  Section 4.1: the sub path is given a leading slash, the
    trailing slash of the base and the leading slash of the sub path do
    not double, and merging with the root keeps the base. *)
Definition mergePath_model (base sub : string) : string :=
  let b := ensure_leading_slash base in
  let s := ensure_leading_slash sub in
  if decide (s = "/") then b else strip_trailing_slash b +:+ s.

Fixpoint drop_until (stop : Ascii.ascii) (s : string) : string :=
  match s with
  | EmptyString => EmptyString
  | String a s' => if Ascii.eqb a stop then s else drop_until stop s'
  end.

Fixpoint take_until (stop : Ascii.ascii) (s : string) : string :=
  match s with
  | EmptyString => EmptyString
  | String a s' => if Ascii.eqb a stop then EmptyString
                   else String a (take_until stop s')
  end.

Definition after_scheme (s : string) : string :=
  if String.prefix "http://" s then slice 7 s
  else if String.prefix "https://" s then slice 8 s
  else s.

(** Modelled from the spec: [getPath] of [./utils/url] is not in
    [src/].  Section 4.4 step 2: the default extractor gives the path of
    the URL. *)
Definition getPath_model (request : Request) (env : Bindings) : string :=
  take_until "?"%char (drop_until "/"%char (after_scheme (req_url request))).

(** Modelled from the spec: [getPathNoStrict] of [./utils/url] is not in
    [src/].  Section 6: the non-strict mode does not distinguish [/foo]
    from [/foo/]. *)
Definition getPathNoStrict_model (request : Request) (env : Bindings) : string :=
  let p := getPath_model request env in
  if decide (p = "/") then p else strip_trailing_slash p.

(** Modelled from the spec: [getQueryStrings] of [./utils/url] is not in
    [src/].  Section 4.5: the query string of the URL, as it is
    re-appended by [mount]. *)
Definition getQueryStrings_model (url : string) : string :=
  drop_until "?"%char url.

Definition url_model : UrlUtils :=
  {| mergePath := mergePath_model;
     getPath := getPath_model;
     getPathNoStrict := getPathNoStrict_model;
     getQueryStrings := getQueryStrings_model |}.

(** The names the class declares its registration functions for, and
    the method name that matches every method. *)
Definition names_model : RouterNames :=
  {| METHODS := ["get"; "post"; "put"; "delete"; "options"; "patch"];
     METHOD_NAME_ALL := "ALL";
     METHOD_NAME_ALL_LOWERCASE := "all" |}.

(** A linear router for the examples: literal patterns, with a final
    [*] that matches any rest; entries are kept and matched in
    registration order. *)
Definition ListRouter : Type := list (string * string * (Handler * RouterRoute)).

Fixpoint pattern_matches (pattern path : string) : bool :=
  match pattern with
  | EmptyString => bool_decide (path = EmptyString)
  | String a pattern' =>
      if bool_decide (pattern = "*") then true
      else match path with
           | EmptyString => false
           | String b path' => Ascii.eqb a b && pattern_matches pattern' path'
           end
  end.

Definition list_router : Router ListRouter :=
  {| router_add := fun method path payload rt =>
       (rt ++ [(method, path, payload)])%list;
     router_match := fun method path rt =>
       omap (fun '(m, p, payload) =>
               if (bool_decide (m = method) || bool_decide (m = "ALL"))
                  && pattern_matches p path
               then Some (payload, []) else None) rt |}.

(** The scheme of an [http(s)] URL with its colon. *)
Definition scheme_of (base : string) : string :=
  if String.prefix "https://" base then "https:" else "http:".

(** Scheme and authority of an [http(s)] URL. *)
Definition origin_of (base : string) : string :=
  scheme_of base +:+ "//" +:+ take_until "/"%char (after_scheme base).

(** The path up to and including its last slash. *)
Fixpoint dir_of (p : string) : string :=
  match p with
  | EmptyString => EmptyString
  | String a p' =>
      match dir_of p' with
      | EmptyString => if Ascii.eqb a "/"%char then "/" else EmptyString
      | d => String a d
      end
  end.

(** [new URL(url, base)] of the platform for the references [mount]
    builds, after the URL standard: a reference that starts with [//]
    keeps only the scheme of the base; one that starts with [/] takes
    the place of the path and query of the base; any other takes the
    place of the last segment of the base path and of the query.
    References with a scheme, a fragment or dot segments are outside
    this model. *)
Definition new_URL_model (url base : string) : string :=
  if String.prefix "//" url then scheme_of base +:+ url
  else if starts_with_slash url then origin_of base +:+ url
  else origin_of base
       +:+ dir_of (take_until "?"%char (drop_until "/"%char (after_scheme base)))
       +:+ url.

Definition platform_model : Platform :=
  {| new_Request := fun url init => mkRequest "GET" url [] None;
     copy_Request := fun r init => r;
     new_URL := new_URL_model |}.

(** A store with one empty router, at reference 0. *)
Definition empty_store : Store ListRouter :=
  mkStore ∅ ∅ {[ 0%nat := [] ]}.

(** ** Sample applications *)

Section Samples.
#[local] Existing Instance url_model.
#[local] Existing Instance names_model.
#[local] Existing Instance platform_model.
#[local] Existing Instance list_router.
#[local] Existing Instance compose_model.

Definition ok (b : string) : Response := mkResponse 200 "" [] (Some b).

Definition plain_500 : Response :=
  mkResponse 500 "" [("Content-Type", "text/plain; charset=UTF-8")]
             (Some "Internal Server Error").

Definition plain_404 : Response :=
  mkResponse 404 "" [("Content-Type", "text/plain; charset=UTF-8")]
             (Some "404 Not Found").

Definition unauthorized_response : Response :=
  mkResponse 401 "" [] (Some "Unauthorized").

Definition teapot_response : Response :=
  mkResponse 418 "" [("Content-Type", "text/plain; charset=UTF-8")]
             (Some "custom").

(** [(c) => new Response('hi')] *)
Definition hi : Handler := mkHandler false (Ret (Some (ok "hi"))) None.

(** [async (c) => {}] *)
Definition nothing : Handler := mkHandler true (Ret None) None.

(** [() => { throw new Error('boom') }] *)
Definition boom : Handler :=
  mkHandler false (Throw (ThrownError (mkError "boom" PlainError))) None.

(** [() => { throw 'oops' }] *)
Definition oops : Handler := mkHandler false (Throw (ThrownValue "oops")) None.

(** [async (c, next) => { await next(); return new Response('late') }] *)
Definition late : Handler :=
  mkHandler true
    (AwaitNext (fun o => match o with
                         | Some t => Throw t
                         | None => Ret (Some (ok "late"))
                         end)) None.

(** [async (c, next) => { c.res = new Response('early'); await next() }] *)
Definition early : Handler :=
  mkHandler true
    (SetRes (ok "early")
       (AwaitNext (fun o => match o with
                            | Some t => Throw t
                            | None => Ret None
                            end))) None.

(** [(c) => {}] *)
Definition idle : Handler := mkHandler false (Ret None) None.

(** [(err, c) => c.text('custom', 418)] *)
Definition teapot (err : Error) (c : Context) : Response := text c "custom" 418.

(** A foreign handler that answers with the URL of the request it was
    called with. *)
Definition echo : ApplicationHandler :=
  fun request _ => Normal (Some (ok (mounted_url request))).

(** A foreign handler that answers nothing. *)
Definition silent : ApplicationHandler := fun _ _ => Normal None.

Definition GET (url : string) : Request := mkRequest "GET" url [] None.

Definition context_of (request : Request) (p : string) : Context :=
  new_Context (mkHonoRequest request p []) None None.

(** [const app = new Hono({ router })]: the application is object 0. *)
Definition store_app : Store ListRouter :=
  (new_Hono (mkHonoOptions None 0%nat None) empty_store).2.

(** [app.get('/hello', hi)] *)
Definition store_hello : Store ListRouter :=
  (verb 0%nat "get" (inl "/hello") [inr hi] store_app).2.

(** [app.get('/n', nothing, nothing)] *)
Definition store_two : Store ListRouter :=
  (verb 0%nat "get" (inl "/n") [inr nothing; inr nothing] store_app).2.

(** [app.onError(teapot)] *)
Definition store_teapot : Store ListRouter :=
  (onError 0%nat teapot store_app).2.

(** [app.mount('/', echo)] *)
Definition store_mount_root : Store ListRouter :=
  (mount 0%nat "/" echo None store_app).2.

(** [app.mount('/legacy', silent); app.get('/legacy/*', hi)] *)
Definition store_legacy : Store ListRouter :=
  (verb 0%nat "get" (inl "/legacy/*") [inr hi]
     (mount 0%nat "/legacy" silent None store_app).2).2.

(** [const sub = new Hono({ router: router1 }); sub.onError(teapot);
    sub.get('/user', boom)]: the sub-application is object 1, with a
    router of its own at reference 1. *)
Definition store_sub : Store ListRouter :=
  (verb 1%nat "get" (inl "/user") [inr boom]
     (onError 1%nat teapot
        (new_Hono (mkHonoOptions None 1%nat None)
           (mkStore (apps store_app) (arrays store_app)
                    (<[1%nat := []]> (routers store_app)))).2).2).2.

(** [app.route('/api', sub)] *)
Definition store_grafted : Store ListRouter :=
  (route 0%nat "/api" (Some 1%nat) store_sub).2.

End Samples.

(** ** Summaries of registration *)

(** The record [addRoute(method, path, handler)] makes for an
    application whose base path is [base]. *)
Definition route_record {U : UrlUtils} (base method path : string)
    (handler : Handler) : RouterRoute :=
  {| route_path := mergePath base path;
     route_method := toUpperCase method;
     route_handler := handler |}.

(** The handlers among the rest arguments of a registration function;
    the strings are passed over ([typeof handler !== 'string']). *)
Definition handlers_of (args : list (string + Handler)) : list Handler :=
  omap (fun a => match a with
                 | inr h => Some h
                 | inl _ => None
                 end) args.

(** The router after [router.add(r.method, r.path, [r.handler, r])] for
    the records of [l], in order. *)
Definition add_all {R : Type} {Rt : Router R} (l : list RouterRoute) (rt : R) : R :=
  foldl (fun rt r =>
           router_add (route_method r) (route_path r) (route_handler r, r) rt)
        rt l.

(** From [σ] to [σ'] the records [l] were put, in order, at the end of
    the route array of [this] and given to its router; the other arrays
    and routers are as they were. *)
Definition appends {R : Type} {Rt : Router R} (this : loc) (σ σ' : Store R)
    (l : list RouterRoute) : Prop :=
  let app := apps σ !!! this in
  arrays σ' !!! app_routes app = ((arrays σ !!! app_routes app) ++ l)%list /\
  (forall a, a <> app_routes app -> arrays σ' !! a = arrays σ !! a) /\
  routers σ' !! app_router app = add_all l <$> routers σ !! app_router app /\
  (forall x, x <> app_router app -> routers σ' !! x = routers σ !! x).

(** The records of [on(method, path, ...handlers)]: for each path, for
    each method, one record per handler. *)
Definition on_records {U : UrlUtils} (base : string) (methods paths : list string)
    (handlers : list Handler) : list RouterRoute :=
  concat (map (fun p =>
    concat (map (fun m => map (route_record base m p) handlers) methods)) paths).

(** What an application object keeps for life: its router, its route
    array, its base path and its path extractor. *)
Definition same_identity (a a' : Hono) : Prop :=
  app_router a' = app_router a /\ app_routes a' = app_routes a /\
  app_basePath a' = app_basePath a /\ app_getPath a' = app_getPath a.

(** Every application object of [σ] is still in [σ'], with the router,
    route array, base path and path extractor it had. *)
Definition keeps_identity {R : Type} (σ σ' : Store R) : Prop :=
  forall (l : loc) (a : Hono),
    apps σ !! l = Some a ->
    exists a', apps σ' !! l = Some a' /\ same_identity a a'.

(** The store after a sequence of operations. *)
Definition steps {U : UrlUtils} {N : RouterNames} {P : Platform} {R : Type}
    {Rt : Router R} {C : Compose} (ops : list Op) (σ : Store R) : Store R :=
  foldl (fun σ op => step op σ) σ ops.

(** A finalized context holds a response. *)
Definition responds (c : Context) : Prop :=
  finalized c = true -> is_Some (res c).

(** Every record of every route array has its method name in upper
    case. *)
Definition upper_methods {R : Type} (σ : Store R) : Prop :=
  forall (a : loc) (l : list RouterRoute) (r : RouterRoute),
    arrays σ !! a = Some l -> r ∈ l -> toUpperCase (route_method r) = route_method r.

(** * Properties *)

(** ** Running programs *)

Lemma exec_seq_catch {A B : Type} (ehs : loc -> ErrorHandler) (next : Next)
    (p : Prog A) (kn : A -> Prog B) (ka : Thrown -> Prog B) (c : Context) :
  exec ehs next (seq_catch p kn ka) c =
  match exec ehs next p c with
  | (Normal a, c') => exec ehs next (kn a) c'
  | (Abrupt t, c') => exec ehs next (ka t) c'
  end.
Proof.
  revert c. induction p as [a|t|k IH|r k IH|k IH|app k IH]; intros c; simpl; auto.
  destruct (next c) as [o c']. apply IH.
Qed.

Lemma exec_bind {A B : Type} (ehs : loc -> ErrorHandler) (next : Next)
    (p : Prog A) (k : A -> Prog B) (c : Context) :
  exec ehs next (bind p k) c =
  match exec ehs next p c with
  | (Normal a, c') => exec ehs next (k a) c'
  | (Abrupt t, c') => (Abrupt t, c')
  end.
Proof.
  unfold bind. rewrite exec_seq_catch.
  destruct (exec ehs next p c) as [[a|t] c']; reflexivity.
Qed.

(** ** The store *)

Section StoreFacts.
Context {U : UrlUtils} {N : RouterNames} {R : Type} {Rt : Router R}.
Context {C : Compose}.

Lemma fresh_app_ne (σ : Store R) (this : loc) (app : Hono) :
  apps σ !! this = Some app -> this <> fresh (dom (apps σ)).
Proof.
  intros H E. apply (is_fresh (dom (apps σ))). rewrite <- E.
  apply elem_of_dom. eauto.
Qed.

Lemma fresh_array_ne (σ : Store R) (a : loc) :
  is_Some (arrays σ !! a) -> a <> fresh (dom (arrays σ)).
Proof.
  intros H E. apply (is_fresh (dom (arrays σ))). rewrite <- E.
  by apply elem_of_dom.
Qed.

Lemma basePath_eq (σ : Store R) (this : loc) (app : Hono) (path : string) :
  apps σ !! this = Some app ->
  basePath this path σ =
  (fresh (dom (apps σ)),
   mkStore (<[fresh (dom (apps σ)) := derived app path]> (apps σ))
           (<[fresh (dom (arrays σ)) := []]> (arrays σ))
           (routers σ)).
Proof.
  intros Happ. pose proof (fresh_app_ne σ this app Happ) as Hne.
  unfold basePath, clone, get_app, set_app, new_Hono, mbind, M_bind, mret, M_ret.
  simpl. rewrite !lookup_total_insert_eq.
  rewrite !(lookup_total_insert_ne _ _ this) by done.
  rewrite !insert_insert_eq.
  rewrite (lookup_total_correct _ _ _ Happ). reflexivity.
Qed.

End StoreFacts.

(** ** Construction *)

Section Construction.
Context {U : UrlUtils} {R : Type}.

(** C10: with [strict] false the application's path extractor is
    [getPathNoStrict] whatever [getPath] option was given; with
    [strict] true, or absent, a given [getPath] is used, and
    [getPath] of the url utilities when none was given. *)
Theorem constructor_getPath (σ : Store R) (router : loc) :
  (forall g, app_getPath (constructed (mkHonoOptions (Some false) router g) σ)
             = getPathNoStrict) /\
  (forall f, app_getPath (constructed (mkHonoOptions (Some true) router (Some f)) σ) = f /\
             app_getPath (constructed (mkHonoOptions None router (Some f)) σ) = f) /\
  app_getPath (constructed (mkHonoOptions (Some true) router None) σ) = getPath /\
  app_getPath (constructed (mkHonoOptions None router None) σ) = getPath.
Proof.
  unfold constructed, new_Hono; simpl.
  repeat split; intros; by rewrite lookup_total_insert_eq.
Qed.

End Construction.

(** ** Derived applications *)

Section Derived.
Context {U : UrlUtils} {N : RouterNames} {R : Type} {Rt : Router R}.
Context {C : Compose}.

Lemma onError_eq (σ : Store R) (this : loc) (app : Hono) eh :
  apps σ !! this = Some app ->
  onError this eh σ =
  (this, mkStore (<[this := with_errorHandler (CustomErrorHandler eh) app]> (apps σ))
                 (arrays σ) (routers σ)).
Proof.
  intros H. unfold onError, set_app, mbind, M_bind, mret, M_ret.
  by rewrite (lookup_total_correct _ _ _ H).
Qed.

Lemma notFound_eq (σ : Store R) (this : loc) (app : Hono) nf :
  apps σ !! this = Some app ->
  notFound this nf σ =
  (this, mkStore (<[this := with_notFoundHandler (CustomNotFoundHandler nf) app]> (apps σ))
                 (arrays σ) (routers σ)).
Proof.
  intros H. unfold notFound, set_app, mbind, M_bind, mret, M_ret.
  by rewrite (lookup_total_correct _ _ _ H).
Qed.

(** C9: after [onError] and [notFound] installed handlers on an
    application, the application [basePath] derives from it holds the
    built-in handlers while the parent keeps its own; the derivative
    has the parent's router and route array; and a dispatch through
    the derivative uses the built-in handlers on both of its paths: the
    direct call of a single handler runs with the built-in not-found
    handler behind [next()] and as fallback, the chain is composed with
    the built-in handlers, an [Error] is answered with the built-in
    error handler (a thrown plain [Error] gives the plain-text 500),
    and an unmatched request gets the built-in 404. *)
Theorem basePath_resets_handlers (σ : Store R) (this : loc) (app : Hono)
    (eh : Error -> Context -> Response) (nf : Context -> Response)
    (prefix : string) :
  apps σ !! this = Some app ->
  let σ1 := (notFound this nf (onError this eh σ).2).2 in
  let subApp := (basePath this prefix σ1).1 in
  let σ2 := (basePath this prefix σ1).2 in
  (app_errorHandler (apps σ2 !!! this) = CustomErrorHandler eh /\
   app_notFoundHandler (apps σ2 !!! this) = CustomNotFoundHandler nf) /\
  (app_errorHandler (apps σ2 !!! subApp) = DefaultErrorHandler /\
   app_notFoundHandler (apps σ2 !!! subApp) = DefaultNotFoundHandler) /\
  (app_router (apps σ2 !!! subApp) = app_router app /\
   app_routes (apps σ2 !!! subApp) = app_routes app /\
   routers σ2 = routers σ) /\
  (forall e c, handleError σ2 subApp (ThrownError e) c
               = Normal (Some (errorHandler e c))) /\
  (forall h c,
     dispatch_single σ2 subApp h c
     = match exec (error_handlers σ2) (single_next DefaultNotFoundHandler)
                  (handler_body h) c with
       | (Abrupt (ThrownError e), c') => Normal (Some (errorHandler e c'))
       | (Abrupt t, c') => Abrupt t
       | (Normal result, c') =>
           if returnsPromise h then
             match result with
             | Some resolved => Normal (Some resolved)
             | None => if finalized c' then Normal (res c')
                       else Normal (Some (notFoundHandler c'))
             end
           else Normal result
       end) /\
  (forall matchResult c,
     dispatch_composed σ2 subApp matchResult c
     = match exec (error_handlers σ2) no_next
                  (compose matchResult (Some DefaultErrorHandler)
                           (Some DefaultNotFoundHandler) None) c with
       | (Normal _, c') =>
           if finalized c' then Normal (res c')
           else Normal (Some (errorHandler unfinalized_error c'))
       | (Abrupt (ThrownError e), c') => Normal (Some (errorHandler e c'))
       | (Abrupt t, c') => Abrupt t
       end) /\
  (forall request x env method,
     method <> "HEAD" ->
     matchRoute σ2 subApp method (app_getPath app request env) = [] ->
     dispatch (C := compose_model) σ2 subApp request x env method
     = Normal (Some (mkResponse 404 "" [("Content-Type", "text/plain; charset=UTF-8")]
                                (Some "404 Not Found")))) /\
  (forall request x env method h r ps msg c',
     method <> "HEAD" ->
     matchRoute σ2 subApp method (app_getPath app request env) = [((h, r), ps)] ->
     exec (error_handlers σ2)
          (single_next DefaultNotFoundHandler) (handler_body h)
          (new_Context (mkHonoRequest request (app_getPath app request env) [ps])
                       env x)
     = (Abrupt (ThrownError (mkError msg PlainError)), c') ->
     dispatch (C := compose_model) σ2 subApp request x env method
     = Normal (Some (mkResponse 500 "" [("Content-Type", "text/plain; charset=UTF-8")]
                                (Some "Internal Server Error")))).
Proof.
  intros Happ σ1 subApp σ2.
  assert (Hσ1 : σ1 = mkStore
            (<[this := with_notFoundHandler (CustomNotFoundHandler nf)
                         (with_errorHandler (CustomErrorHandler eh) app)]> (apps σ))
            (arrays σ) (routers σ)).
  { unfold σ1. rewrite (onError_eq σ this app eh Happ). cbn [snd].
    erewrite notFound_eq by (cbn [apps]; apply lookup_insert_eq).
    cbn [snd apps arrays routers]. by rewrite insert_insert_eq. }
  set (app1 := with_notFoundHandler (CustomNotFoundHandler nf)
                 (with_errorHandler (CustomErrorHandler eh) app)) in Hσ1.
  assert (H1 : apps σ1 !! this = Some app1).
  { rewrite Hσ1. simpl. apply lookup_insert_eq. }
  pose proof (basePath_eq σ1 this app1 prefix H1) as Hb.
  pose proof (fresh_app_ne σ1 this app1 H1) as Hne.
  assert (Hsub : apps σ2 !!! subApp = derived app1 prefix).
  { unfold σ2, subApp. rewrite Hb. simpl. apply lookup_total_insert_eq. }
  assert (Hthis : apps σ2 !!! this = app1).
  { unfold σ2. rewrite Hb. simpl.
    rewrite lookup_total_insert_ne by done.
    by apply lookup_total_correct. }
  split; [by rewrite Hthis|].
  split; [by rewrite Hsub|].
  split.
  { rewrite Hsub. do 2 (split; [reflexivity|]).
    unfold σ2. rewrite Hb. cbn [snd routers]. by rewrite Hσ1. }
  split.
  { intros e c. unfold handleError. by rewrite Hsub. }
  split.
  { intros h c. unfold dispatch_single, handleError. rewrite Hsub. simpl.
    destruct (exec _ _ _ c) as [[result|[e|v]] c']; reflexivity. }
  split.
  { intros matchResult c. unfold dispatch_composed, handleError.
    rewrite Hsub. simpl.
    destruct (exec _ _ _ c) as [[u|[e|v]] c']; reflexivity. }
  split.
  - intros request x env method Hm Hmatch.
    unfold dispatch. rewrite decide_False by done.
    unfold dispatch_method. rewrite Hsub. simpl. rewrite Hmatch.
    unfold dispatch_composed. rewrite Hsub. reflexivity.
  - intros request x env method h r ps msg c' Hm Hmatch Hexec.
    unfold dispatch. rewrite decide_False by done.
    unfold dispatch_method. rewrite Hsub. simpl. rewrite Hmatch.
    unfold dispatch_single. rewrite Hsub. simpl.
    simpl in Hexec. rewrite Hexec.
    unfold handleError. rewrite Hsub. reflexivity.
Qed.

End Derived.

(** ** The dispatcher *)

Section Dispatcher.
Context {U : UrlUtils} {N : RouterNames} {R : Type} {Rt : Router R}.
Context {C : Compose}.

Lemma dispatch_not_HEAD (σ : Store R) this request x env method :
  method <> "HEAD" ->
  dispatch σ this request x env method
  = dispatch_method σ this request x env method.
Proof. intros H. unfold dispatch. by rewrite decide_False. Qed.

Lemma dispatch_method_composed (σ : Store R) this request x env method :
  length (matchRoute σ this method (app_getPath (apps σ !!! this) request env)) <> 1%nat ->
  dispatch_method σ this request x env method
  = dispatch_composed σ this
      (matchRoute σ this method (app_getPath (apps σ !!! this) request env))
      (new_Context
         (mkHonoRequest request (app_getPath (apps σ !!! this) request env)
            (map snd (matchRoute σ this method
                        (app_getPath (apps σ !!! this) request env))))
         env x).
Proof.
  intros H. unfold dispatch_method.
  destruct (matchRoute σ this method _) as [|[[h r] ps] [|y l]];
    simpl in *; congruence.
Qed.

(** C3: a dispatch with method HEAD is the dispatch of the same
    request, execution context and bindings with method GET, and when
    that gives a response the HEAD response has its status, status
    text and headers and a null body; [fetch] dispatches a request
    whose method is HEAD in this way. *)
Theorem dispatch_HEAD (σ : Store R) (this : loc) (request : Request)
    (x : option ExecutionContext) (env : Bindings) :
  dispatch σ this request x env "HEAD"
  = match dispatch σ this request x env "GET" with
    | Normal init => Normal (Some (new_Response_null init))
    | Abrupt t => Abrupt t
    end /\
  (forall r, dispatch σ this request x env "GET" = Normal (Some r) ->
     exists r', dispatch σ this request x env "HEAD" = Normal (Some r') /\
                status r' = status r /\ statusText r' = statusText r /\
                headers r' = headers r /\ body r' = None) /\
  (req_method request = "HEAD" ->
   fetch σ this request env x
   = match dispatch σ this request x env "GET" with
     | Normal init => Normal (Some (new_Response_null init))
     | Abrupt t => Abrupt t
     end).
Proof.
  assert (E : dispatch σ this request x env "HEAD"
              = match dispatch σ this request x env "GET" with
                | Normal init => Normal (Some (new_Response_null init))
                | Abrupt t => Abrupt t
                end).
  { unfold dispatch. rewrite decide_True by done.
    rewrite decide_False by discriminate. reflexivity. }
  split; [exact E|]. split.
  - intros r Hget. rewrite E, Hget. eexists. split; [reflexivity|].
    simpl. auto.
  - intros Hm. unfold fetch. rewrite Hm. exact E.
Qed.

(** C2, amended: [handleError] gives every [Error], an HTTPException
    or not, to the error handler configured on the application, and
    throws every other value again, so that value leaves [dispatch] on
    both of its paths; it is the built-in error handler that returns
    the response an HTTPException carries and answers any other
    [Error] with the plain-text 500. *)
Theorem handleError_cases (σ : Store R) (this : loc) :
  (forall e c, handleError σ this (ThrownError e) c
     = Normal (Some (call_errorHandler (app_errorHandler (apps σ !!! this)) e c))) /\
  (forall msg r c,
     call_errorHandler DefaultErrorHandler (mkError msg (HTTPException r)) c = r) /\
  (forall msg c,
     call_errorHandler DefaultErrorHandler (mkError msg PlainError) c
     = mkResponse 500 "" [("Content-Type", "text/plain; charset=UTF-8")]
                  (Some "Internal Server Error")) /\
  (forall v c, handleError σ this (ThrownValue v) c = Abrupt (ThrownValue v)) /\
  (forall h c v c',
     exec (error_handlers σ)
          (single_next (app_notFoundHandler (apps σ !!! this)))
          (handler_body h) c = (Abrupt (ThrownValue v), c') ->
     dispatch_single σ this h c = Abrupt (ThrownValue v)) /\
  (forall matchResult c v c',
     exec (error_handlers σ) no_next
          (compose matchResult (Some (app_errorHandler (apps σ !!! this)))
                   (Some (app_notFoundHandler (apps σ !!! this))) None) c
     = (Abrupt (ThrownValue v), c') ->
     dispatch_composed σ this matchResult c = Abrupt (ThrownValue v)).
Proof.
  repeat split; try reflexivity.
  - intros h c v c' H. unfold dispatch_single. by rewrite H.
  - intros mr c v c' H. unfold dispatch_composed. by rewrite H.
Qed.

(** C6, amended: on the composed path, with a number of matched
    handlers other than one, a chain that ends with the context not
    finalized makes [dispatch] raise the [Error] "Context is not
    finalized. ..." inside its own [try], so the error goes to
    [handleError] and is answered by the configured error handler like
    an [Error] of a handler (the plain-text 500 with the built-in
    one); a chain that ends finalized gives the context's response. *)
Theorem dispatch_composed_unfinalized (σ : Store R) (this : loc)
    (request : Request) (x : option ExecutionContext) (env : Bindings)
    (method : string) (u : unit) (c' : Context) :
  let app := apps σ !!! this in
  let path := app_getPath app request env in
  let matchResult := matchRoute σ this method path in
  let c := new_Context (mkHonoRequest request path (map snd matchResult)) env x in
  method <> "HEAD" ->
  length matchResult <> 1%nat ->
  exec (error_handlers σ) no_next
       (compose matchResult (Some (app_errorHandler app))
                (Some (app_notFoundHandler app)) None) c = (Normal u, c') ->
  (finalized c' = false ->
     dispatch σ this request x env method
     = Normal (Some (call_errorHandler (app_errorHandler app) unfinalized_error c')) /\
     (app_errorHandler app = DefaultErrorHandler ->
      dispatch σ this request x env method
      = Normal (Some (mkResponse 500 "" [("Content-Type", "text/plain; charset=UTF-8")]
                                 (Some "Internal Server Error"))))) /\
  (finalized c' = true ->
     dispatch σ this request x env method = Normal (res c')) /\
  message unfinalized_error
  = "Context is not finalized. You may forget returning Response object or `await next()`" /\
  kind unfinalized_error = PlainError.
Proof.
  intros app path matchResult c Hm Hlen Hexec.
  assert (E : dispatch σ this request x env method
              = dispatch_composed σ this matchResult c).
  { rewrite dispatch_not_HEAD by done. by rewrite dispatch_method_composed. }
  rewrite E. unfold dispatch_composed. fold app. rewrite Hexec.
  repeat split.
  - rewrite H. reflexivity.
  - intros Hd. rewrite H. unfold handleError. fold app. rewrite Hd. reflexivity.
  - intros H. rewrite H. reflexivity.
Qed.

End Dispatcher.

(** ** The route table *)

Section RouteTable.
Context {U : UrlUtils} {N : RouterNames} {P : Platform}.
Context {R : Type} {Rt : Router R} {C : Compose}.

Lemma grows_refl (σ : Store R) : grows σ σ.
Proof. intros a l H. exists []. by rewrite app_nil_r. Qed.

Lemma grows_trans (σ1 σ2 σ3 : Store R) :
  grows σ1 σ2 -> grows σ2 σ3 -> grows σ1 σ3.
Proof.
  intros H12 H23 a l H.
  destruct (H12 a l H) as [l1 H1]. destruct (H23 a _ H1) as [l2 H2].
  exists (l1 ++ l2)%list. by rewrite app_assoc.
Qed.

Lemma grows_same_arrays (σ σ' : Store R) : arrays σ' = arrays σ -> grows σ σ'.
Proof. intros E a l H. exists []. by rewrite E, app_nil_r. Qed.

Lemma bind_grows {A B : Type} (m : M A) (k : A -> M B) (σ : Store R) :
  grows σ (m σ).2 -> (forall a σ1, grows σ1 (k a σ1).2) ->
  grows σ ((m ≫= k) σ).2.
Proof.
  intros Hm Hk. unfold mbind, M_bind. destruct (m σ) as [a σ1]. simpl in *.
  eapply grows_trans; [exact Hm | apply Hk].
Qed.

Lemma set_app_grows this f (σ : Store R) : grows σ (set_app this f σ).2.
Proof. by apply grows_same_arrays. Qed.

Lemma get_app_grows this (σ : Store R) : grows σ (get_app this σ).2.
Proof. apply grows_refl. Qed.

Lemma for_each_grows {A : Type} (l : list A) (f : A -> M unit) :
  (forall x σ, grows σ (f x σ).2) ->
  forall σ : Store R, grows σ (for_each l f σ).2.
Proof.
  intros Hf. induction l as [|x l IH]; intros σ; simpl.
  - apply grows_refl.
  - apply bind_grows; [apply Hf | intros _ σ1; apply IH].
Qed.

Lemma new_Hono_grows options (σ : Store R) : grows σ (new_Hono options σ).2.
Proof.
  intros a l H. exists []. simpl. rewrite app_nil_r.
  rewrite lookup_insert_ne; [done|].
  intros E. eapply fresh_array_ne; [|symmetry; exact E]. eauto.
Qed.

Lemma addRoute_grows this method path handler (σ : Store R) :
  grows σ (addRoute this method path handler σ).2.
Proof.
  intros a l H. simpl.
  destruct (decide (a = app_routes (apps σ !!! this))) as [->|Hne].
  - eexists. rewrite lookup_insert_eq.
    by rewrite (lookup_total_correct _ _ _ H).
  - exists []. rewrite app_nil_r. by rewrite lookup_insert_ne.
Qed.

Lemma clone_grows this (σ : Store R) : grows σ (clone this σ).2.
Proof.
  unfold clone. apply bind_grows; [apply get_app_grows|]. intros app σ1.
  apply bind_grows; [apply new_Hono_grows|]. intros l σ2.
  apply bind_grows; [apply set_app_grows|]. intros _ σ3. apply grows_refl.
Qed.

Lemma basePath_grows this path (σ : Store R) : grows σ (basePath this path σ).2.
Proof.
  unfold basePath. apply bind_grows; [apply clone_grows|]. intros l σ1.
  apply bind_grows; [apply get_app_grows|]. intros app σ2.
  apply bind_grows; [apply set_app_grows|]. intros _ σ3. apply grows_refl.
Qed.

Lemma registered_grows this method (σ : Store R) handler :
  grows σ ((get_app this ≫= fun app => addRoute this method (app_path app) handler) σ).2.
Proof.
  apply bind_grows; [apply get_app_grows|]. intros app σ1. apply addRoute_grows.
Qed.

Lemma step_grows (op : Op) (σ : Store R) : grows σ (step op σ).
Proof.
  destruct op; unfold step; [| | | | | | | | |apply grows_refl..].
  - apply new_Hono_grows.
  - unfold verb. apply bind_grows.
    + destruct args1; [apply set_app_grows | apply registered_grows].
    + intros _ σ1. apply bind_grows; [|intros; apply grows_refl].
      apply for_each_grows. intros [s|h] σ2;
        [apply grows_refl | apply registered_grows].
  - unfold on. destruct (decide (method = inl "")); [apply grows_refl|].
    apply bind_grows; [|intros; apply grows_refl].
    apply for_each_grows. intros p σ1.
    apply bind_grows; [apply set_app_grows|]. intros _ σ2.
    apply for_each_grows. intros m σ3.
    apply for_each_grows. intros h σ4. apply registered_grows.
  - unfold use. apply bind_grows.
    + destruct arg1; (apply bind_grows; [apply set_app_grows|]);
        intros; apply grows_refl.
    + intros hs σ1. apply bind_grows; [|intros; apply grows_refl].
      apply for_each_grows. intros h σ2. apply registered_grows.
  - unfold route. apply bind_grows; [apply basePath_grows|]. intros subApp σ1.
    destruct app as [app|]; [|apply grows_refl].
    apply bind_grows; [apply get_app_grows|]. intros a σ2.
    apply bind_grows; [apply grows_refl|]. intros routes σ3.
    apply bind_grows; [|intros; apply grows_refl].
    apply for_each_grows. intros r σ4.
    apply bind_grows; [apply get_app_grows|]. intros a' σ5.
    apply addRoute_grows.
  - apply basePath_grows.
  - unfold onError. apply bind_grows; [apply set_app_grows|].
    intros; apply grows_refl.
  - unfold notFound. apply bind_grows; [apply set_app_grows|].
    intros; apply grows_refl.
  - unfold mount. apply bind_grows; [apply get_app_grows|]. intros a σ1.
    apply bind_grows; [apply addRoute_grows|]. intros; apply grows_refl.
Qed.

Lemma addRoute_eq this method path handler (σ : Store R) :
  let app := apps σ !!! this in
  let r := mkRouterRoute (mergePath (app_basePath app) path)
                         (toUpperCase method) handler in
  addRoute this method path handler σ
  = (tt, mkStore (apps σ)
           (<[app_routes app := ((arrays σ !!! app_routes app) ++ [r])%list]>
              (arrays σ))
           (alter (router_add (toUpperCase method)
                              (mergePath (app_basePath app) path) (handler, r))
                  (app_router app) (routers σ))).
Proof. reflexivity. Qed.

(** C8: [addRoute(method, path, handler)] upper-cases the method,
    merges the base path with the path, puts the one record
    [{path, method, handler}] at the end of the application's route
    array, leaves every other array and the application objects as
    they are, and gives [(method, path, [handler, record])] to the
    router; and no operation on an application takes an entry out of
    an array or moves it: after every operation each array still
    starts with the entries it had, in their order. *)
Theorem route_table_append_only :
  (forall (σ : Store R) this method path handler,
     let app := apps σ !!! this in
     let r := mkRouterRoute (mergePath (app_basePath app) path)
                            (toUpperCase method) handler in
     let σ' := (addRoute this method path handler σ).2 in
     arrays σ' !!! app_routes app = ((arrays σ !!! app_routes app) ++ [r])%list /\
     (forall a, a <> app_routes app -> arrays σ' !! a = arrays σ !! a) /\
     routers σ' !! app_router app
     = router_add (toUpperCase method) (mergePath (app_basePath app) path)
                  (handler, r) <$> routers σ !! app_router app /\
     (forall l, l <> app_router app -> routers σ' !! l = routers σ !! l) /\
     apps σ' = apps σ) /\
  (forall (op : Op) (σ : Store R) (a : loc) (l : list RouterRoute),
     arrays σ !! a = Some l ->
     exists l', arrays (step op σ) !! a = Some (l ++ l')%list).
Proof.
  split.
  - intros σ this method path handler app r σ'. unfold σ'.
    rewrite addRoute_eq. cbn [snd arrays routers apps]. fold app. fold r.
    split; [apply lookup_total_insert_eq|].
    split; [intros a Ha; by apply lookup_insert_ne|].
    split; [apply lookup_alter_eq|].
    split; [intros l Hl; by apply lookup_alter_ne|].
    reflexivity.
  - intros op σ. apply step_grows.
Qed.

End RouteTable.

(** ** The modelled path builder *)

Section PathBuilder.

Lemma string_app_assoc (s t u : string) : s +:+ (t +:+ u) = (s +:+ t) +:+ u.
Proof.
  induction s as [|a s IH]; [reflexivity|].
  change (String a (s +:+ (t +:+ u)) = String a ((s +:+ t) +:+ u)).
  by rewrite IH.
Qed.

Lemma ensure_leading_slash_starts (s : string) :
  starts_with_slash (ensure_leading_slash s) = true.
Proof.
  unfold ensure_leading_slash.
  destruct (starts_with_slash s) eqn:E; [exact E | reflexivity].
Qed.

Lemma ensure_leading_slash_id (s : string) :
  starts_with_slash s = true -> ensure_leading_slash s = s.
Proof. intros H. unfold ensure_leading_slash. by rewrite H. Qed.

Lemma starts_with_slash_app (s t : string) :
  starts_with_slash s = true -> starts_with_slash (s +:+ t) = true.
Proof. by destruct s. Qed.

Lemma strip_trailing_slash_app (s t : string) :
  t <> "" -> strip_trailing_slash (s +:+ t) = s +:+ strip_trailing_slash t.
Proof.
  intros Ht. induction s as [|a s IH]; [reflexivity|].
  simpl. rewrite IH.
  rewrite (bool_decide_eq_false_2 (s +:+ t = "")).
  - by rewrite andb_false_r.
  - destruct s; [exact Ht | discriminate].
Qed.

Lemma strip_trailing_slash_starts (s : string) :
  starts_with_slash s = true -> s <> "/" ->
  starts_with_slash (strip_trailing_slash s) = true.
Proof.
  destruct s as [|a s]; [discriminate|]. simpl. intros Ha Hne.
  rewrite Ha. simpl. destruct (bool_decide_reflect (s = "")) as [->|_].
  - apply Ascii.eqb_eq in Ha. by subst.
  - simpl. exact Ha.
Qed.

Lemma strip_trailing_slash_root : strip_trailing_slash "/" = "".
Proof. reflexivity. Qed.

Lemma mergePath_model_starts (a b : string) :
  starts_with_slash (mergePath_model a b) = true.
Proof.
  unfold mergePath_model. case_decide as Hb.
  - apply ensure_leading_slash_starts.
  - destruct (decide (ensure_leading_slash a = "/")) as [->|Ha].
    + rewrite strip_trailing_slash_root. apply ensure_leading_slash_starts.
    + apply starts_with_slash_app, strip_trailing_slash_starts;
        [apply ensure_leading_slash_starts | exact Ha].
Qed.

Lemma app_not_root (s t : string) :
  starts_with_slash t = true -> t <> "/" -> s +:+ t <> "/".
Proof.
  intros Ht Hne E. destruct t as [|y t]; [discriminate|].
  destruct s as [|x s]; [by apply Hne|].
  destruct s; discriminate.
Qed.

(** The modelled path builder is associative on all paths. *)
Lemma mergePath_model_assoc (a b c : string) :
  mergePath_model (mergePath_model a b) c
  = mergePath_model a (mergePath_model b c).
Proof.
  pose proof (mergePath_model_starts a b) as Hab.
  pose proof (mergePath_model_starts b c) as Hbc.
  unfold mergePath_model at 1 3.
  rewrite (ensure_leading_slash_id _ Hab), (ensure_leading_slash_id _ Hbc).
  pose proof (ensure_leading_slash_starts c) as Hc.
  pose proof (ensure_leading_slash_starts b) as Hb.
  destruct (decide (ensure_leading_slash c = "/")) as [Ec|Nc].
  - (* merging with the root keeps the left path *)
    assert (Hbc' : mergePath_model b c = ensure_leading_slash b).
    { unfold mergePath_model. by rewrite decide_True. }
    rewrite Hbc'. reflexivity.
  - assert (Hbc' : mergePath_model b c
                   = strip_trailing_slash (ensure_leading_slash b)
                     +:+ ensure_leading_slash c).
    { unfold mergePath_model. by rewrite decide_False. }
    rewrite (decide_False (P := mergePath_model b c = "/")).
    2:{ rewrite Hbc'. by apply app_not_root. }
    rewrite Hbc'. unfold mergePath_model.
    destruct (decide (ensure_leading_slash b = "/")) as [Eb|Nb].
    + rewrite Eb, strip_trailing_slash_root. reflexivity.
    + rewrite strip_trailing_slash_app.
      * by rewrite string_app_assoc.
      * intros E. rewrite E in Hb. discriminate.
Qed.

End PathBuilder.

(** ** Base paths *)

Section BasePath.
Context {U : UrlUtils} {N : RouterNames} {R : Type} {Rt : Router R}.

Lemma basePath_registration_where_associative (σ : Store R) (this : loc)
    (app : Hono) (p q method : string) (handler : Handler) :
  apps σ !! this = Some app ->
  is_Some (arrays σ !! app_routes app) ->
  mergePath (mergePath (app_basePath app) p) q
  = mergePath (app_basePath app) (mergePath p q) ->
  registers_alike σ this app p q method handler.
Proof.
  intros Happ Harr Hassoc. unfold registers_alike.
  set (subApp := (basePath this p σ).1). set (σ1 := (basePath this p σ).2).
  cbn zeta.
  pose proof (basePath_eq σ this app p Happ) as Hb.
  pose proof (fresh_app_ne σ this app Happ) as Hne.
  pose proof (fresh_array_ne σ _ Harr) as Hna.
  assert (Hsub : apps σ1 !!! subApp = derived app p).
  { unfold σ1, subApp. rewrite Hb. apply lookup_total_insert_eq. }
  assert (Hthis : apps σ1 !!! this = app).
  { unfold σ1. rewrite Hb. cbn [snd apps].
    rewrite lookup_total_insert_ne by done. by apply lookup_total_correct. }
  assert (Hold : arrays σ1 !!! app_routes app = arrays σ !!! app_routes app).
  { unfold σ1. rewrite Hb. cbn [snd arrays].
    by rewrite lookup_total_insert_ne. }
  assert (Hrt : routers σ1 = routers σ).
  { unfold σ1. by rewrite Hb. }
  split; [by rewrite Hsub|].
  rewrite !addRoute_eq.
  cbn [snd arrays routers apps]. rewrite Hsub, Hthis.
  rewrite (lookup_total_correct _ _ _ Happ).
  cbn [derived app_basePath app_routes app_router].
  rewrite Hassoc, Hold, Hrt.
  repeat split; by rewrite ?lookup_total_insert_eq.
Qed.

End BasePath.

(** C7: registering [q] on the application derived by [basePath(p)] and
    registering [mergePath(p, q)] on the application itself put the same
    record (method, full path, handler) at the end of the same route
    array and give the same entry to the same router, the derivative
    holding the parent's router and route array by reference: for any
    path builder, at every base path, [p] and [q] on which it is
    associative; and for the modelled path builder at every [p] and
    [q]. *)
Theorem basePath_registration :
  (forall (U : UrlUtils) (R : Type) (Rt : Router R) (σ : Store R) (this : loc)
          (app : Hono) (p q method : string) (handler : Handler),
     apps σ !! this = Some app ->
     is_Some (arrays σ !! app_routes app) ->
     mergePath (mergePath (app_basePath app) p) q
     = mergePath (app_basePath app) (mergePath p q) ->
     registers_alike σ this app p q method handler) /\
  (forall (R : Type) (Rt : Router R) (σ : Store R) (this : loc)
          (app : Hono) (p q method : string) (handler : Handler),
     apps σ !! this = Some app ->
     is_Some (arrays σ !! app_routes app) ->
     registers_alike (U := url_model) σ this app p q method handler).
Proof.
  split.
  - intros U R Rt. apply basePath_registration_where_associative.
  - intros R Rt σ this app p q method handler Happ Harr.
    apply (basePath_registration_where_associative (U := url_model));
      [exact Happ | exact Harr |].
    apply mergePath_model_assoc.
Qed.

(** ** Grafting a sub-application *)

Section Route.
Context {U : UrlUtils} {N : RouterNames} {R : Type} {Rt : Router R}.

Lemma graft_loop {C : Compose} (app subApp : loc) (routes : list RouterRoute)
    (σ : Store R) (u : unit) (σ' : Store R) :
  for_each routes (fun r =>
    a ← get_app app;
    let handler :=
      match app_errorHandler a with
      | DefaultErrorHandler => route_handler r
      | CustomErrorHandler _ => composed_handler app r
      end in
    addRoute subApp (route_method r) (route_path r) handler) σ = (u, σ') ->
  apps σ' = apps σ /\
  arrays σ' !!! app_routes (apps σ !!! subApp)
  = ((arrays σ !!! app_routes (apps σ !!! subApp))
     ++ map (grafted app (app_errorHandler (apps σ !!! app))
                     (app_basePath (apps σ !!! subApp))) routes)%list.
Proof.
  revert σ. induction routes as [|r routes IH]; intros σ E.
  - inversion E; subst. split; [done|]. simpl. by rewrite app_nil_r.
  - cbn [for_each] in E. unfold mbind at 1, M_bind at 1 in E.
    unfold mbind at 1, M_bind at 1, get_app at 1 in E.
    rewrite addRoute_eq in E. cbn beta iota zeta in E.
    apply IH in E. cbn [apps arrays] in E. destruct E as [Ea Er].
    split; [exact Ea|]. rewrite Er.
    rewrite lookup_total_insert_eq. rewrite <- app_assoc. reflexivity.
Qed.

(** C4: [route(path, app)] adds to the parent's route array, in order,
    one record for each record of [app]: with the path merged under
    the derivative's base path, the method in upper case, and as
    handler the original handler when [app] holds the built-in error
    handler, and the composed handler otherwise.  The composed handler
    keeps the original under [COMPOSED_HANDLER], and when the original
    throws an [Error] it returns the response of the error handler
    that [app] holds, so that a dispatch through the parent returns
    that response and the parent's own error handler is not asked. *)
Theorem route_grafts (σ : Store R) (this app : loc) (parent sub : Hono)
    (path : string) :
  apps σ !! this = Some parent ->
  apps σ !! app = Some sub ->
  is_Some (arrays σ !! app_routes parent) ->
  is_Some (arrays σ !! app_routes sub) ->
  let σ' := (route (C := compose_model) this path (Some app) σ).2 in
  arrays σ' !!! app_routes parent
  = ((arrays σ !!! app_routes parent)
     ++ map (grafted (C := compose_model) app (app_errorHandler sub)
                     (mergePath (app_basePath parent) path))
            (arrays σ !!! app_routes sub))%list /\
  (forall base r,
     route_handler (grafted (C := compose_model) app DefaultErrorHandler base r)
     = route_handler r) /\
  (forall f base r,
     COMPOSED_HANDLER
       (route_handler (grafted (C := compose_model) app (CustomErrorHandler f) base r))
     = Some (route_handler r)) /\
  (forall f base r ehs next c e c',
     exec ehs next (handler_body (route_handler r)) c
     = (Abrupt (ThrownError e), c') ->
     exec ehs next
       (handler_body
          (route_handler (grafted (C := compose_model) app (CustomErrorHandler f) base r))) c
     = (Normal (Some (call_errorHandler (ehs app) e c')),
        set_res (call_errorHandler (ehs app) e c') c')) /\
  (forall f base r (τ : Store R) top c e c',
     exec (error_handlers τ) (single_next (app_notFoundHandler (apps τ !!! top)))
          (handler_body (route_handler r)) c
     = (Abrupt (ThrownError e), c') ->
     dispatch_single τ top
       (route_handler (grafted (C := compose_model) app (CustomErrorHandler f) base r)) c
     = Normal (Some (call_errorHandler (app_errorHandler (apps τ !!! app)) e c'))).
Proof.
  intros Hthis Happ Harrp Harrs σ'.
  assert (Hwrap : forall f base r ehs next c e c',
     exec ehs next (handler_body (route_handler r)) c
     = (Abrupt (ThrownError e), c') ->
     exec ehs next
       (handler_body
          (route_handler (grafted (C := compose_model) app (CustomErrorHandler f) base r))) c
     = (Normal (Some (call_errorHandler (ehs app) e c')),
        set_res (call_errorHandler (ehs app) e c') c')).
  { intros f base r ehs next c e c' Hexec. simpl.
    rewrite exec_bind. unfold compose, compose_model. rewrite exec_seq_catch.
    simpl. rewrite exec_bind, Hexec. reflexivity. }
  split; [|split; [reflexivity|split; [reflexivity|split; [exact Hwrap|]]]].
  - unfold σ', route.
    unfold mbind at 1, M_bind at 1. rewrite (basePath_eq σ this parent path Hthis).
    set (subApp := fresh (dom (apps σ))).
    set (σ1 := mkStore _ _ _).
    pose proof (fresh_app_ne σ this parent Hthis) as Hne1.
    pose proof (fresh_app_ne σ app sub Happ) as Hne2.
    pose proof (fresh_array_ne σ _ Harrp) as Hna1.
    pose proof (fresh_array_ne σ _ Harrs) as Hna2.
    assert (Hsub1 : apps σ1 !!! subApp = derived parent path)
      by apply lookup_total_insert_eq.
    assert (Happ1 : apps σ1 !!! app = sub).
    { unfold σ1. cbn [apps]. rewrite lookup_total_insert_ne by done.
      by apply lookup_total_correct. }
    unfold mbind at 1, M_bind at 1, get_app at 1.
    unfold mbind at 1, M_bind at 1, get_array at 1.
    rewrite Happ1.
    unfold mbind at 1, M_bind at 1.
    destruct (for_each _ _ σ1) as [u σ2] eqn:Hloop.
    apply (graft_loop (C := compose_model)) in Hloop.
    destruct Hloop as [_ Hloop]. unfold mret, M_ret. cbn [snd].
    rewrite Hsub1, Happ1 in Hloop. cbn [derived app_routes app_basePath] in Hloop.
    rewrite Hloop. unfold σ1. cbn [arrays].
    by rewrite !lookup_total_insert_ne.
  - intros f base r τ top c e c' Hexec.
    unfold dispatch_single.
    rewrite (Hwrap f base r _ _ _ _ _ Hexec). reflexivity.
Qed.

End Route.

(** ** Mounting a foreign handler *)

Section Mount.
Context {U : UrlUtils} {N : RouterNames} {P : Platform}.
Context {R : Type} {Rt : Router R}.

Lemma slice_length_app (pre rest : string) :
  slice (String.length pre) (pre +:+ rest) = rest.
Proof. induction pre as [|a pre IH]; simpl; [by destruct rest | exact IH]. Qed.

Lemma slice_0 (s : string) : slice 0 s = s.
Proof. by destruct s. Qed.

(** [mount(path, applicationHandler, optionHandler)] adds one record,
    for the method name that stands for all methods and the pattern
    [mergePath(path, '*')] under the base path.  Its handler calls the
    foreign handler with the options and with the request made for the
    URL that [new URL] resolves, against the URL of the incoming
    request, from this reference: the request path without its first
    [length mergedPath] characters, or the whole path when the merged
    prefix is "/", with "/" for an empty remainder, followed by the
    query string.  A response of the foreign handler is the handler's
    result; after a falsy result the handler awaits [next()]; a throw
    of the foreign handler is thrown on. *)
Lemma mount_delegates (σ : Store R) (this : loc) (prefix : string)
    (applicationHandler : ApplicationHandler)
    (optionHandler : option (Context -> Value)) :
  let app := apps σ !!! this in
  let mergedPath := mergePath (app_basePath app) prefix in
  let n := if decide (mergedPath = "/") then 0%nat else String.length mergedPath in
  let handler := mount_handler n applicationHandler optionHandler in
  let σ' := (mount this prefix applicationHandler optionHandler σ).2 in
  arrays σ' !!! app_routes app
  = ((arrays σ !!! app_routes app)
     ++ [mkRouterRoute (mergePath (app_basePath app) (mergePath prefix "*"))
                       (toUpperCase METHOD_NAME_ALL) handler])%list /\
  (forall ehs next c,
     let options :=
       match optionHandler with
       | Some f => f c
       | None => VArray [VBindings (env c); VExecutionContext (executionCtx c)]
       end in
     let optionsArray := match options with VArray l => l | v => [v] end in
     let target :=
       or_slash (slice n (path (req c))) +:+ getQueryStrings (url (req c)) in
     exec ehs next (handler_body handler) c
     = match applicationHandler
               (mkMountedRequest (new_URL target (url (req c))) (raw (req c)))
               optionsArray with
       | Normal (Some response) => (Normal (Some response), c)
       | Normal None =>
           ((match (next c).1 with
             | Some t => Abrupt t
             | None => Normal None
             end), (next c).2)
       | Abrupt t => (Abrupt t, c)
       end) /\
  (mergedPath <> "/" -> forall rest, slice n (mergedPath +:+ rest) = rest) /\
  (mergedPath = "/" -> forall p, slice n p = p) /\
  or_slash "" = "/" /\
  (forall s, s <> "" -> or_slash s = s).
Proof.
  intros app mergedPath n handler σ'.
  split.
  { unfold σ', mount. unfold mbind at 1, M_bind at 1, get_app at 1.
    fold app. fold mergedPath. fold n. fold handler.
    unfold mbind at 1, M_bind at 1. rewrite addRoute_eq.
    cbn [snd arrays mret M_ret]. fold app.
    unfold mret, M_ret. cbn [snd arrays]. apply lookup_total_insert_eq. }
  split.
  { intros ehs next c options optionsArray target. simpl.
    fold options. fold optionsArray. fold target.
    destruct (applicationHandler _ optionsArray) as [[r|]|t]; simpl; try done.
    destruct (next c) as [[t|] c']; reflexivity. }
  split.
  { intros Hne rest. unfold n. rewrite decide_False by done.
    apply slice_length_app. }
  split.
  { intros He p. unfold n. rewrite decide_True by done. apply slice_0. }
  split; [reflexivity|].
  intros s Hs. unfold or_slash. by rewrite decide_False.
Qed.

End Mount.

(** ** One matched handler: the direct call and the composed chain *)

Section SingleHandler.
Context {U : UrlUtils} {N : RouterNames} {R : Type} {Rt : Router R}.

Variable ehs : loc -> ErrorHandler.
Variable nf : NotFoundHandler.

(** Once [next()] was called in a step the context is finalized, and a
    body that awaits [next()] only while it is not never gets to the
    rejected second call. *)
Lemma link_called {A : Type} (rest : Prog unit) (p : Prog A) (c : Context) :
  finalized c = true ->
  awaits_next_unfinalized ehs (single_next nf) p c = true ->
  exec ehs no_next (link true rest p) c = exec ehs (single_next nf) p c.
Proof.
  revert c. induction p as [a|t|k IH|r k IH|k IH|app k IH];
    intros c Hfin Hcalls; simpl in *; auto.
  rewrite Hfin in Hcalls. discriminate.
Qed.

(** The body linked to the end of the chain runs as it does with the
    dispatcher's own [next]. *)
Lemma link_single {A : Type} (p : Prog A) (c : Context) :
  awaits_next_unfinalized ehs (single_next nf) p c = true ->
  exec ehs no_next (link false (chain_end (Some nf) None) p) c
  = exec ehs (single_next nf) p c.
Proof.
  revert c. induction p as [a|t|k IH|r k IH|k IH|app k IH];
    intros c Hcalls; simpl in *; auto.
  apply andb_true_iff in Hcalls as [Hfin Hcalls].
  apply negb_true_iff in Hfin.
  rewrite exec_seq_catch. simpl. rewrite Hfin. simpl.
  by apply link_called.
Qed.

End SingleHandler.

Section FastPath.
Context {U : UrlUtils} {N : RouterNames} {R : Type} {Rt : Router R}.

Lemma exec_keep_result ehs next (v : option Response) (c : Context) :
  exec ehs next (keep_result v) c
  = (Normal tt, match v with
                | Some r => if finalized c then c else set_res r c
                | None => c
                end).
Proof. destruct v as [r|]; simpl; [|done]. by destruct (finalized c). Qed.

(** C1, amended: with one matched handler that awaits [next()] only
    while the context is not finalized, the direct call of the
    dispatcher and the composed chain over the same one-handler list
    give the same result whenever the handler throws, returns a
    response with the context not finalized (or the response the
    context holds), or returns a promise of nothing with the context
    finalized.  In particular a thrown [Error] is answered on both
    paths by the configured error handler (the plain-text 500 with the
    built-in one), and a returned response is the result. *)
Theorem single_handler_paths (σ : Store R) (this : loc) (h : Handler)
    (r : RouterRoute) (ps : list (string * string)) (c : Context) :
  let nf := app_notFoundHandler (apps σ !!! this) in
  let eh := app_errorHandler (apps σ !!! this) in
  let run := exec (error_handlers σ) (single_next nf) (handler_body h) c in
  awaits_next_unfinalized (error_handlers σ) (single_next nf) (handler_body h) c
  = true ->
  paths_agree_on h run.1 run.2 ->
  dispatch_single σ this h c
  = dispatch_composed (C := compose_model) σ this [((h, r), ps)] c /\
  (forall e, run.1 = Abrupt (ThrownError e) ->
     dispatch_single σ this h c = Normal (Some (call_errorHandler eh e run.2))) /\
  (forall msg, run.1 = Abrupt (ThrownError (mkError msg PlainError)) ->
     eh = DefaultErrorHandler ->
     dispatch_single σ this h c
     = Normal (Some (mkResponse 500 "" [("Content-Type", "text/plain; charset=UTF-8")]
                                (Some "Internal Server Error")))) /\
  (forall response, run.1 = Normal (Some response) ->
     dispatch_single σ this h c = Normal (Some response)) /\
  (forall v, run.1 = Abrupt (ThrownValue v) ->
     dispatch_single σ this h c = Abrupt (ThrownValue v)).
Proof.
  intros nf eh run Hcalls Hagree.
  assert (Hcomposed :
    exec (error_handlers σ) no_next
         (compose_model [((h, r), ps)] (Some eh) (Some nf) None) c
    = match run with
      | (Normal v, c') =>
          (Normal tt, match v with
                      | Some resp => if finalized c' then c' else set_res resp c'
                      | None => c'
                      end)
      | (Abrupt (ThrownError e), c') =>
          (Normal tt, set_res (call_errorHandler eh e c') c')
      | (Abrupt t, c') => (Abrupt t, c')
      end).
  { unfold compose_model. rewrite exec_seq_catch. cbn [chain].
    rewrite exec_bind. rewrite link_single by exact Hcalls. fold run.
    destruct run as [[v|t] c'].
    - rewrite exec_keep_result. reflexivity.
    - destruct t; reflexivity. }
  unfold dispatch_single, dispatch_composed, compose. fold nf eh run.
  rewrite Hcomposed. clear Hcomposed.
  destruct run as [[[resp|]|[e|v]] c'] eqn:Hrun; cbn [fst snd] in *.
  - split.
    + destruct Hagree as [Hfin|Hres].
      * rewrite Hfin. simpl. by destruct (returnsPromise h).
      * destruct (finalized c') eqn:Hfin; simpl.
        -- rewrite Hfin, Hres. by destruct (returnsPromise h).
        -- by destruct (returnsPromise h).
    + repeat split; try discriminate.
      intros response [= <-]. by destruct (returnsPromise h).
  - destruct Hagree as [Hp Hfin]. rewrite Hp, Hfin.
    repeat split; discriminate.
  - split; [reflexivity|]. unfold handleError. fold eh.
    split; [by intros e' [= <-]|].
    split; [|split; discriminate].
    intros msg [= ->] ->. reflexivity.
  - repeat split; try discriminate.
    by intros v' [= <-].
Qed.

End FastPath.

(** ** The properties on the sample applications *)

Section Witnesses.
#[local] Existing Instance url_model.
#[local] Existing Instance names_model.
#[local] Existing Instance platform_model.
#[local] Existing Instance list_router.
#[local] Existing Instance compose_model.

(** A handler that throws [Error('boom')] gets the plain-text 500 on
    the direct call and on the composed chain alike. *)
Lemma single_handler_paths_witness :
  awaits_next_unfinalized (error_handlers store_app)
    (single_next (app_notFoundHandler (apps store_app !!! 0%nat)))
    (handler_body boom) (context_of (GET "http://localhost/fail") "/fail") = true /\
  dispatch_single store_app 0%nat boom (context_of (GET "http://localhost/fail") "/fail")
  = dispatch_composed store_app 0%nat [((boom, mkRouterRoute "/fail" "GET" boom), [])]
      (context_of (GET "http://localhost/fail") "/fail") /\
  dispatch_single store_app 0%nat boom (context_of (GET "http://localhost/fail") "/fail")
  = Normal (Some plain_500).
Proof.
  assert (Hcalls :
    awaits_next_unfinalized (error_handlers store_app)
      (single_next (app_notFoundHandler (apps store_app !!! 0%nat)))
      (handler_body boom) (context_of (GET "http://localhost/fail") "/fail") = true)
    by reflexivity.
  destruct (single_handler_paths store_app 0%nat boom
              (mkRouterRoute "/fail" "GET" boom) []
              (context_of (GET "http://localhost/fail") "/fail") Hcalls I)
    as [H1 [_ [H3 _]]].
  split; [exact Hcalls|]. split; [exact H1|].
  apply (H3 "boom"); vm_compute; reflexivity.
Defined.

(** The one-handler counterexample to C1 as stated: for
    [async (c) => {}] the direct call answers with the not-found
    handler's 404, the composed chain with the error handler's 500. *)
Lemma single_handler_paths_differ :
  dispatch_single store_app 0%nat nothing (context_of (GET "http://localhost/n") "/n")
  = Normal (Some plain_404) /\
  dispatch_composed store_app 0%nat [((nothing, mkRouterRoute "/n" "GET" nothing), [])]
    (context_of (GET "http://localhost/n") "/n")
  = Normal (Some plain_500) /\
  dispatch_single store_app 0%nat nothing (context_of (GET "http://localhost/n") "/n")
  <> dispatch_composed store_app 0%nat [((nothing, mkRouterRoute "/n" "GET" nothing), [])]
       (context_of (GET "http://localhost/n") "/n").
Proof.
  assert (H1 : dispatch_single store_app 0%nat nothing
                 (context_of (GET "http://localhost/n") "/n")
               = Normal (Some plain_404)) by (vm_compute; reflexivity).
  assert (H2 : dispatch_composed store_app 0%nat
                 [((nothing, mkRouterRoute "/n" "GET" nothing), [])]
                 (context_of (GET "http://localhost/n") "/n")
               = Normal (Some plain_500)) by (vm_compute; reflexivity).
  split; [exact H1|]. split; [exact H2|].
  rewrite H1, H2. discriminate.
Qed.

(** The other ways the two paths part, which the amended statement
    leaves out: a response returned after [next()] finalized the
    context; a function that is not [async] and returns nothing; and a
    response assigned before [next()] is awaited. *)
Lemma single_handler_paths_differ_late :
  dispatch_single store_app 0%nat late (context_of (GET "http://localhost/n") "/n")
  = Normal (Some (ok "late")) /\
  dispatch_composed store_app 0%nat [((late, mkRouterRoute "/n" "GET" late), [])]
    (context_of (GET "http://localhost/n") "/n")
  = Normal (Some plain_404).
Proof. split; vm_compute; reflexivity. Qed.

Lemma single_handler_paths_differ_idle :
  dispatch_single store_app 0%nat idle (context_of (GET "http://localhost/n") "/n")
  = Normal None /\
  dispatch_composed store_app 0%nat [((idle, mkRouterRoute "/n" "GET" idle), [])]
    (context_of (GET "http://localhost/n") "/n")
  = Normal (Some plain_500).
Proof. split; vm_compute; reflexivity. Qed.

Lemma single_handler_paths_differ_early :
  dispatch_single store_app 0%nat early (context_of (GET "http://localhost/n") "/n")
  = Normal (Some plain_404) /\
  dispatch_composed store_app 0%nat [((early, mkRouterRoute "/n" "GET" early), [])]
    (context_of (GET "http://localhost/n") "/n")
  = Normal (Some (ok "early")).
Proof. split; vm_compute; reflexivity. Qed.

(** A thrown value that is not an [Error] leaves the dispatcher. *)
Lemma handleError_cases_witness :
  exec (error_handlers store_app)
       (single_next (app_notFoundHandler (apps store_app !!! 0%nat)))
       (handler_body oops) (context_of (GET "http://localhost/x") "/x")
  = (Abrupt (ThrownValue "oops"), context_of (GET "http://localhost/x") "/x") /\
  dispatch_single store_app 0%nat oops (context_of (GET "http://localhost/x") "/x")
  = Abrupt (ThrownValue "oops").
Proof.
  assert (H : exec (error_handlers store_app)
                (single_next (app_notFoundHandler (apps store_app !!! 0%nat)))
                (handler_body oops) (context_of (GET "http://localhost/x") "/x")
              = (Abrupt (ThrownValue "oops"), context_of (GET "http://localhost/x") "/x"))
    by reflexivity.
  split; [exact H|].
  destruct (handleError_cases store_app 0%nat) as [_ [_ [_ [_ [Hs _]]]]].
  exact (Hs oops _ "oops" _ H).
Defined.

(** The counterexample to C2 as stated: with an error handler
    installed by [onError], [handleError] answers an HTTPException
    with that handler's response, not with the response the exception
    carries. *)
Lemma handleError_custom_HTTPException :
  handleError store_teapot 0%nat
    (ThrownError (mkError "Unauthorized" (HTTPException unauthorized_response)))
    (context_of (GET "http://localhost/x") "/x")
  = Normal (Some teapot_response) /\
  handleError store_teapot 0%nat
    (ThrownError (mkError "Unauthorized" (HTTPException unauthorized_response)))
    (context_of (GET "http://localhost/x") "/x")
  <> Normal (Some unauthorized_response).
Proof.
  assert (H : handleError store_teapot 0%nat
                (ThrownError (mkError "Unauthorized" (HTTPException unauthorized_response)))
                (context_of (GET "http://localhost/x") "/x")
              = Normal (Some teapot_response)) by (vm_compute; reflexivity).
  split; [exact H|]. rewrite H. discriminate.
Qed.

(** HEAD on a path with a GET route. *)
Lemma dispatch_HEAD_witness :
  dispatch store_hello 0%nat (mkRequest "HEAD" "http://localhost/hello" [] None)
           None None "GET" = Normal (Some (ok "hi")) /\
  exists r', dispatch store_hello 0%nat
               (mkRequest "HEAD" "http://localhost/hello" [] None) None None "HEAD"
             = Normal (Some r') /\
             status r' = 200 /\ statusText r' = "" /\ headers r' = [] /\ body r' = None.
Proof.
  assert (H : dispatch store_hello 0%nat
                (mkRequest "HEAD" "http://localhost/hello" [] None) None None "GET"
              = Normal (Some (ok "hi"))) by (vm_compute; reflexivity).
  split; [exact H|].
  destruct (dispatch_HEAD store_hello 0%nat
              (mkRequest "HEAD" "http://localhost/hello" [] None) None None)
    as [_ [Hhead _]].
  exact (Hhead (ok "hi") H).
Defined.

(** Grafting the sub-application that has the error handler [teapot]
    and the route [GET /user] under [/api]. *)
Lemma route_grafts_witness :
  apps store_sub !! 0%nat = Some (apps store_sub !!! 0%nat) /\
  apps store_sub !! 1%nat = Some (apps store_sub !!! 1%nat) /\
  is_Some (arrays store_sub !! app_routes (apps store_sub !!! 0%nat)) /\
  is_Some (arrays store_sub !! app_routes (apps store_sub !!! 1%nat)) /\
  arrays store_grafted !!! app_routes (apps store_sub !!! 0%nat)
  = [mkRouterRoute "/api/user" "GET"
       (composed_handler 1%nat (mkRouterRoute "/user" "GET" boom))] /\
  fetch store_grafted 0%nat (GET "http://localhost/api/user") None None
  = Normal (Some teapot_response).
Proof.
  assert (H0 : apps store_sub !! 0%nat = Some (apps store_sub !!! 0%nat))
    by (vm_compute; reflexivity).
  assert (H1 : apps store_sub !! 1%nat = Some (apps store_sub !!! 1%nat))
    by (vm_compute; reflexivity).
  assert (A0 : is_Some (arrays store_sub !! app_routes (apps store_sub !!! 0%nat)))
    by (vm_compute; eauto).
  assert (A1 : is_Some (arrays store_sub !! app_routes (apps store_sub !!! 1%nat)))
    by (vm_compute; eauto).
  do 4 (split; [assumption|]).
  destruct (route_grafts store_sub 0%nat 1%nat _ _ "/api" H0 H1 A0 A1)
    as [Harr [_ [_ [_ Hdispatch]]]].
  split.
  - etransitivity; [exact Harr|]. vm_compute. reflexivity.
  - vm_compute. reflexivity.
Defined.

(** C5: the claim on [mount] fails at a prefix that ends with a slash.
    After [app.mount('/legacy/', echo)] the merged prefix is
    [/legacy/], the pattern is [/legacy/*] and the request
    [GET /legacy/x?a=1] has the path [/legacy/] followed by [x]; the
    remainder [x] with the query string is a relative reference, which
    [new URL] resolves against the URL of the request, and the foreign
    handler is called with the request for [/legacy/x?a=1]: the prefix
    is still there, where the claim has [/x?a=1].  The same call with
    the prefix [/legacy] gives the foreign handler [/x?a=1], and
    mounted at the root, where the code strips nothing, it gives the
    path as it came; a foreign handler that answers nothing lets a
    later route run. *)
Theorem mount_trailing_slash_keeps_prefix :
  mergePath (app_basePath (apps store_app !!! 0%nat)) "/legacy/" = "/legacy/" /\
  arrays (mount 0%nat "/legacy/" echo None store_app).2
    !!! app_routes (apps store_app !!! 0%nat)
  = [mkRouterRoute "/legacy/*" "ALL" (mount_handler 8 echo None)] /\
  getPath (GET "http://localhost/legacy/x?a=1") None = "/legacy/" +:+ "x" /\
  fetch (mount 0%nat "/legacy/" echo None store_app).2 0%nat
        (GET "http://localhost/legacy/x?a=1") None None
  = Normal (Some (ok "http://localhost/legacy/x?a=1")) /\
  getPath (GET "http://localhost/legacy/x?a=1") None <> "/x" /\
  fetch (mount 0%nat "/legacy" echo None store_app).2 0%nat
        (GET "http://localhost/legacy/x?a=1") None None
  = Normal (Some (ok "http://localhost/x?a=1")) /\
  getPath (GET "http://localhost/x?a=1") None = "/x" /\
  fetch store_mount_root 0%nat (GET "http://localhost/foo?a=1") None None
  = Normal (Some (ok "http://localhost/foo?a=1")) /\
  fetch store_legacy 0%nat (GET "http://localhost/legacy/x") None None
  = Normal (Some (ok "hi")).
Proof.
  split; [vm_compute; reflexivity|].
  split.
  { destruct (mount_delegates store_app 0%nat "/legacy/" echo None) as [Harr _].
    etransitivity; [exact Harr|]. vm_compute. reflexivity. }
  split; [vm_compute; reflexivity|].
  split; [vm_compute; reflexivity|].
  split; [vm_compute; discriminate|].
  repeat split; vm_compute; reflexivity.
Qed.

(** Two handlers that answer nothing: the chain ends with the context
    not finalized and the dispatch gives the error handler's 500. *)
Lemma dispatch_composed_unfinalized_witness :
  "GET" <> "HEAD" /\
  length (matchRoute store_two 0%nat "GET"
            (app_getPath (apps store_two !!! 0%nat) (GET "http://localhost/n") None))
  <> 1%nat /\
  finalized
    (new_Context (mkHonoRequest (GET "http://localhost/n") "/n" [[]; []]) None None)
  = false /\
  dispatch store_two 0%nat (GET "http://localhost/n") None None "GET"
  = Normal (Some plain_500).
Proof.
  assert (Hm : "GET" <> "HEAD") by discriminate.
  assert (Hlen : length (matchRoute store_two 0%nat "GET"
                   (app_getPath (apps store_two !!! 0%nat)
                                (GET "http://localhost/n") None)) <> 1%nat)
    by (vm_compute; discriminate).
  do 2 (split; [assumption|]). split; [reflexivity|].
  assert (Hexec :
    exec (error_handlers store_two) no_next
      (compose
         (matchRoute store_two 0%nat "GET"
            (app_getPath (apps store_two !!! 0%nat) (GET "http://localhost/n") None))
         (Some (app_errorHandler (apps store_two !!! 0%nat)))
         (Some (app_notFoundHandler (apps store_two !!! 0%nat))) None)
      (new_Context
         (mkHonoRequest (GET "http://localhost/n")
            (app_getPath (apps store_two !!! 0%nat) (GET "http://localhost/n") None)
            (map snd
               (matchRoute store_two 0%nat "GET"
                  (app_getPath (apps store_two !!! 0%nat)
                               (GET "http://localhost/n") None))))
         None None)
    = (Normal tt,
       new_Context (mkHonoRequest (GET "http://localhost/n") "/n" [[]; []]) None None))
    by (vm_compute; reflexivity).
  destruct (dispatch_composed_unfinalized store_two 0%nat
              (GET "http://localhost/n") None None "GET" tt _
              Hm Hlen Hexec) as [Hunfinalized _].
  destruct (Hunfinalized eq_refl) as [_ Hdefault].
  apply Hdefault. vm_compute. reflexivity.
Defined.

(** The counterexample to C6 as stated: on the composed path, with the
    chain ended and the context not finalized, the dispatch does not
    throw the "not finalized" error; the configured error handler
    turns it into a response. *)
Lemma unfinalized_error_is_handled :
  length (matchRoute store_two 0%nat "GET" "/n") = 2%nat /\
  exec (error_handlers store_two) no_next
       (compose (matchRoute store_two 0%nat "GET" "/n")
                (Some (app_errorHandler (apps store_two !!! 0%nat)))
                (Some (app_notFoundHandler (apps store_two !!! 0%nat))) None)
       (new_Context (mkHonoRequest (GET "http://localhost/n") "/n" [[]; []]) None None)
  = (Normal tt,
     new_Context (mkHonoRequest (GET "http://localhost/n") "/n" [[]; []]) None None) /\
  fetch store_two 0%nat (GET "http://localhost/n") None None
  = Normal (Some plain_500) /\
  fetch store_two 0%nat (GET "http://localhost/n") None None
  <> Abrupt (ThrownError unfinalized_error).
Proof.
  assert (H : fetch store_two 0%nat (GET "http://localhost/n") None None
              = Normal (Some plain_500)) by (vm_compute; reflexivity).
  split; [vm_compute; reflexivity|]. split; [vm_compute; reflexivity|].
  split; [exact H|]. rewrite H. discriminate.
Qed.

(** [app.basePath('/api')] then [get('/users', hi)], against
    [app.get('/api/users', hi)]. *)
Lemma basePath_registration_witness :
  apps store_app !! 0%nat = Some (apps store_app !!! 0%nat) /\
  is_Some (arrays store_app !! app_routes (apps store_app !!! 0%nat)) /\
  arrays (addRoute (basePath 0%nat "/api" store_app).1 "get" "/users" hi
                   (basePath 0%nat "/api" store_app).2).2
    !!! app_routes (apps store_app !!! 0%nat)
  = [mkRouterRoute "/api/users" "GET" hi] /\
  arrays (addRoute 0%nat "get" (mergePath "/api" "/users") hi store_app).2
    !!! app_routes (apps store_app !!! 0%nat)
  = [mkRouterRoute "/api/users" "GET" hi].
Proof.
  assert (H0 : apps store_app !! 0%nat = Some (apps store_app !!! 0%nat))
    by (vm_compute; reflexivity).
  assert (A0 : is_Some (arrays store_app !! app_routes (apps store_app !!! 0%nat)))
    by (vm_compute; eauto).
  do 2 (split; [assumption|]).
  destruct basePath_registration as [_ Hmodel].
  destruct (Hmodel _ _ store_app 0%nat _ "/api" "/users" "get" hi H0 A0)
    as [_ [Hd [Hp _]]].
  split; (etransitivity; [eassumption|]); vm_compute; reflexivity.
Defined.

(** Grafting appends to the parent's array and keeps what it held. *)
Lemma route_table_append_only_witness :
  arrays store_hello !! 0%nat = Some [mkRouterRoute "/hello" "GET" hi] /\
  exists l', arrays (step (OpUse 0%nat (inl "/m") [nothing]) store_hello) !! 0%nat
             = Some ([mkRouterRoute "/hello" "GET" hi] ++ l')%list.
Proof.
  assert (H : arrays store_hello !! 0%nat = Some [mkRouterRoute "/hello" "GET" hi])
    by (vm_compute; reflexivity).
  split; [exact H|].
  destruct route_table_append_only as [_ Hgrows].
  exact (Hgrows (OpUse 0%nat (inl "/m") [nothing]) store_hello 0%nat _ H).
Defined.

(** A parent with [teapot] installed: the derivative answers an
    unmatched request with the built-in 404 and holds the built-in
    error handler. *)
Lemma basePath_resets_handlers_witness :
  apps store_app !! 0%nat = Some (apps store_app !!! 0%nat) /\
  app_errorHandler
    (apps (basePath 0%nat "/api"
             (notFound 0%nat (fun c => teapot_response)
                (onError 0%nat teapot store_app).2).2).2
     !!! (basePath 0%nat "/api"
            (notFound 0%nat (fun c => teapot_response)
               (onError 0%nat teapot store_app).2).2).1)
  = DefaultErrorHandler /\
  dispatch
    (basePath 0%nat "/api"
       (notFound 0%nat (fun c => teapot_response)
          (onError 0%nat teapot store_app).2).2).2
    (basePath 0%nat "/api"
       (notFound 0%nat (fun c => teapot_response)
          (onError 0%nat teapot store_app).2).2).1
    (GET "http://localhost/missing") None None "GET"
  = Normal (Some plain_404).
Proof.
  assert (H0 : apps store_app !! 0%nat = Some (apps store_app !!! 0%nat))
    by (vm_compute; reflexivity).
  split; [exact H0|].
  destruct (basePath_resets_handlers store_app 0%nat _ teapot
              (fun c => teapot_response) "/api" H0)
    as [_ [[Heh _] [_ [_ [_ [_ [H404 _]]]]]]].
  split; [exact Heh|].
  apply H404; [discriminate | vm_compute; reflexivity].
Defined.

End Witnesses.

(** * Further properties of the registration functions *)

Section Registration.
Context {U : UrlUtils} {N : RouterNames} {R : Type} {Rt : Router R}.

Lemma appends_nil (this : loc) (σ : Store R) : appends this σ σ [].
Proof.
  unfold appends. rewrite app_nil_r. repeat split; try done.
  by destruct (routers σ !! _).
Qed.

Lemma add_all_app (l1 l2 : list RouterRoute) (rt : R) :
  add_all (l1 ++ l2) rt = add_all l2 (add_all l1 rt).
Proof. unfold add_all. by rewrite foldl_app. Qed.

Lemma appends_trans (this : loc) (σ σ1 σ2 : Store R) (l1 l2 : list RouterRoute) :
  app_routes (apps σ1 !!! this) = app_routes (apps σ !!! this) ->
  app_router (apps σ1 !!! this) = app_router (apps σ !!! this) ->
  appends this σ σ1 l1 -> appends this σ1 σ2 l2 ->
  appends this σ σ2 (l1 ++ l2).
Proof.
  unfold appends. intros Hr Hrt (A1 & O1 & R1 & P1) (A2 & O2 & R2 & P2).
  rewrite Hr, Hrt in *. repeat split.
  - by rewrite A2, A1, app_assoc.
  - intros a Ha. by rewrite O2, O1.
  - rewrite R2, R1. destruct (routers σ !! _); simpl; [|done].
    by rewrite add_all_app.
  - intros x Hx. by rewrite P2, P1.
Qed.

Lemma addRoute_appends (this : loc) (method path : string) (handler : Handler)
    (σ : Store R) :
  apps (addRoute this method path handler σ).2 = apps σ /\
  appends this σ (addRoute this method path handler σ).2
          [route_record (app_basePath (apps σ !!! this)) method path handler].
Proof.
  rewrite addRoute_eq. split; [reflexivity|]. unfold appends. cbn [snd arrays routers].
  repeat split.
  - apply lookup_total_insert_eq.
  - intros a Ha. by apply lookup_insert_ne.
  - apply lookup_alter_eq.
  - intros x Hx. by apply lookup_alter_ne.
Qed.

(** The loop of the registration functions over their handlers, with
    the path the object holds. *)
Lemma for_each_register (this : loc) (method : string) (hs : list Handler)
    (σ : Store R) :
  exists σ',
    for_each hs (fun handler =>
      app ← get_app this; addRoute this method (app_path app) handler) σ
    = (tt, σ') /\
    apps σ' = apps σ /\
    appends this σ σ'
      (map (route_record (app_basePath (apps σ !!! this)) method
                         (app_path (apps σ !!! this))) hs).
Proof.
  revert σ. induction hs as [|h hs IH]; intros σ.
  - exists σ. split; [reflexivity|]. split; [reflexivity|]. apply appends_nil.
  - cbn [for_each]. unfold mbind at 1, M_bind at 1.
    unfold mbind at 1, M_bind at 1, get_app at 1.
    destruct (addRoute_appends this method (app_path (apps σ !!! this)) h σ)
      as [Ha Happ].
    destruct (addRoute this method (app_path (apps σ !!! this)) h σ) as [[] σ1].
    cbn [snd] in *.
    destruct (IH σ1) as (σ' & E & Ha' & Happ'). rewrite Ha in *.
    exists σ'. split; [exact E|]. split; [exact Ha'|].
    change (map ?f (h :: hs)) with ([f h] ++ map f hs)%list.
    eapply appends_trans; [| |exact Happ|exact Happ']; by rewrite Ha.
Qed.

Lemma appends_from (this : loc) (σ σ0 σ' : Store R) (l : list RouterRoute) :
  arrays σ0 = arrays σ -> routers σ0 = routers σ ->
  app_routes (apps σ0 !!! this) = app_routes (apps σ !!! this) ->
  app_router (apps σ0 !!! this) = app_router (apps σ !!! this) ->
  appends this σ0 σ' l -> appends this σ σ' l.
Proof.
  unfold appends. intros Ea Er Hr Hrt. rewrite Ea, Er, Hr, Hrt. done.
Qed.

Lemma for_each_args (this : loc) (method : string) (args : list (string + Handler))
    (σ : Store R) :
  for_each args (fun a =>
    match a with
    | inr handler =>
        app ← get_app this; addRoute this method (app_path app) handler
    | inl _ => mret tt
    end) σ
  = for_each (handlers_of args) (fun handler =>
      app ← get_app this; addRoute this method (app_path app) handler) σ.
Proof.
  revert σ. induction args as [|[s|h] args IH]; intros σ; [reflexivity| |].
  - cbn [for_each]. unfold mbind at 1, M_bind at 1, mret at 1, M_ret at 1.
    apply IH.
  - change (handlers_of (inr h :: args)) with (h :: handlers_of args).
    cbn [for_each]. unfold mbind at 1, M_bind at 1.
    unfold mbind at 3, M_bind at 3.
    destruct ((get_app this ≫= _) σ) as [u σ1]. apply IH.
Qed.

Lemma verb_with_path_eq (σ : Store R) (this : loc) (method p : string)
    (args : list (string + Handler)) :
  exists σ',
    verb this method (inl p) args σ = (this, σ') /\
    apps σ' = <[this := with_path p (apps σ !!! this)]> (apps σ) /\
    appends this σ σ'
      (map (route_record (app_basePath (apps σ !!! this)) method p)
           (handlers_of args)).
Proof.
  unfold verb.
  unfold mbind at 1, M_bind at 1, set_app at 1.
  set (σ0 := mkStore (<[this := with_path p (apps σ !!! this)]> (apps σ))
                     (arrays σ) (routers σ)).
  unfold mbind at 1, M_bind at 1. rewrite for_each_args.
  destruct (for_each_register this method (handlers_of args) σ0)
    as (σ1 & E & Ha & Happ).
  rewrite E. unfold mret, M_ret. exists σ1.
  assert (H0 : apps σ0 !!! this = with_path p (apps σ !!! this))
    by apply lookup_total_insert_eq.
  rewrite H0 in Happ. cbn [with_path app_basePath app_path] in Happ.
  split; [reflexivity|]. split; [exact Ha|].
  eapply appends_from; [| | | |exact Happ]; try reflexivity; by rewrite H0.
Qed.

Lemma verb_handler_first_eq (τ : Store R) (this : loc) (method : string)
    (h : Handler) (args : list (string + Handler)) :
  exists τ',
    verb this method (inr h) args τ = (this, τ') /\
    apps τ' = apps τ /\
    appends this τ τ'
      (map (route_record (app_basePath (apps τ !!! this)) method
                         (app_path (apps τ !!! this)))
           (h :: handlers_of args)).
Proof.
  unfold verb. unfold mbind at 1, M_bind at 1.
  pose proof (for_each_register this method (h :: handlers_of args) τ)
    as (τ2 & E & Ha & Happ).
  cbn [for_each] in E. unfold mbind at 1, M_bind at 1 in E.
  destruct ((get_app this ≫= _) τ) as [[] τ1].
  unfold mbind at 1, M_bind at 1. rewrite for_each_args, E.
  unfold mret, M_ret. exists τ2. by split.
Qed.

(** X1: a registration function called with a path, as in
    [app.get(path, ...handlers)], returns the application, stores the
    path on it, and puts one record per handler, in the order of the
    arguments, at the end of the route array and into the router: the
    method in upper case and the path merged under the base path.
    Strings among the later arguments are passed over and do not become
    the path. *)
Theorem verb_with_path (σ : Store R) (this : loc) (method p : string)
    (args : list (string + Handler)) :
  (verb this method (inl p) args σ).1 = this /\
  apps (verb this method (inl p) args σ).2
  = <[this := with_path p (apps σ !!! this)]> (apps σ) /\
  appends this σ (verb this method (inl p) args σ).2
    (map (route_record (app_basePath (apps σ !!! this)) method p)
         (handlers_of args)).
Proof.
  destruct (verb_with_path_eq σ this method p args) as (σ' & E & H).
  rewrite E. by split.
Qed.

(** X2: a registration function called without a path, as in
    [app.post(handler)], registers under the path the application
    object holds.  So after [app.get(path, ...)] a following
    [app.post(handler, ...)] on the same object registers under that
    same path: the table gets the records of the first call and then
    those of the second, all with the path of the first. *)
Theorem verb_keeps_path (σ : Store R) (this : loc) (m1 m2 p : string)
    (args1 args2 : list (string + Handler)) (h : Handler) :
  (forall τ : Store R,
     apps (verb this m2 (inr h) args2 τ).2 = apps τ /\
     appends this τ (verb this m2 (inr h) args2 τ).2
       (map (route_record (app_basePath (apps τ !!! this)) m2
                          (app_path (apps τ !!! this)))
            (h :: handlers_of args2))) /\
  appends this σ
    (verb this m2 (inr h) args2 (verb this m1 (inl p) args1 σ).2).2
    (map (route_record (app_basePath (apps σ !!! this)) m1 p) (handlers_of args1)
     ++ map (route_record (app_basePath (apps σ !!! this)) m2 p)
            (h :: handlers_of args2)).
Proof.
  split.
  - intros τ. destruct (verb_handler_first_eq τ this m2 h args2) as (τ' & E & H).
    rewrite E. exact H.
  - destruct (verb_with_path_eq σ this m1 p args1) as (σ1 & E1 & Ha1 & Happ1).
    rewrite E1. cbn [snd].
    destruct (verb_handler_first_eq σ1 this m2 h args2) as (σ2 & E2 & Ha2 & Happ2).
    rewrite E2. cbn [snd].
    assert (H1 : apps σ1 !!! this = with_path p (apps σ !!! this)).
    { rewrite Ha1. apply lookup_total_insert_eq. }
    rewrite H1 in Happ2. cbn [with_path app_basePath app_path] in Happ2.
    eapply appends_trans; [| |exact Happ1|exact Happ2]; by rewrite H1.
Qed.

Lemma upper_ascii_idem (a : Ascii.ascii) : upper_ascii (upper_ascii a) = upper_ascii a.
Proof. destruct a as [[] [] [] [] [] [] [] []]; reflexivity. Qed.

Lemma toUpperCase_idem (s : string) : toUpperCase (toUpperCase s) = toUpperCase s.
Proof.
  induction s as [|a s IH]; [reflexivity|].
  cbn [toUpperCase]. by rewrite upper_ascii_idem, IH.
Qed.

Lemma addRoute_upper (this : loc) (method path : string) (handler : Handler)
    (σ : Store R) :
  addRoute this (toUpperCase method) path handler σ
  = addRoute this method path handler σ.
Proof. rewrite !addRoute_eq. cbn zeta. by rewrite toUpperCase_idem. Qed.

Lemma route_record_upper (base method path : string) (handler : Handler) :
  route_record base (toUpperCase method) path handler
  = route_record base method path handler.
Proof. unfold route_record. by rewrite toUpperCase_idem. Qed.

Lemma M_bind_eq {A B : Type} (m : M A) (k : A -> M B) (σ : Store R) :
  (m ≫= k) σ = let '(a, σ') := m σ in k a σ'.
Proof. reflexivity. Qed.

Lemma for_each_ext {A : Type} (l : list A) (f g : A -> M unit) (σ : Store R) :
  (forall x τ, f x τ = g x τ) -> for_each l f σ = for_each l g σ.
Proof.
  intros H. revert σ. induction l as [|x l IH]; intros σ; [reflexivity|].
  cbn [for_each]. unfold mbind, M_bind. rewrite H.
  destruct (g x σ) as [u σ1]. apply IH.
Qed.

Lemma handlers_of_inr (hs : list Handler) : handlers_of (map inr hs) = hs.
Proof. induction hs as [|h hs IH]; [reflexivity|]. cbn. by f_equal. Qed.

Lemma on_methods_loop (this : loc) (ms : list string) (hs : list Handler)
    (σ : Store R) :
  exists σ',
    for_each ms (fun m =>
      for_each hs (fun handler =>
        app ← get_app this;
        addRoute this (toUpperCase m) (app_path app) handler)) σ = (tt, σ') /\
    apps σ' = apps σ /\
    appends this σ σ'
      (concat (map (fun m =>
                 map (route_record (app_basePath (apps σ !!! this)) m
                                   (app_path (apps σ !!! this))) hs) ms)).
Proof.
  revert σ. induction ms as [|m ms IH]; intros σ.
  - exists σ. split; [reflexivity|]. split; [reflexivity|]. apply appends_nil.
  - cbn [for_each]. unfold mbind at 1, M_bind at 1.
    destruct (for_each_register this (toUpperCase m) hs σ) as (σ1 & E & Ha & Happ).
    rewrite E. destruct (IH σ1) as (σ' & E' & Ha' & Happ'). rewrite Ha in *.
    exists σ'. split; [exact E'|]. split; [exact Ha'|].
    cbn [map concat].
    eapply appends_trans; [| | |exact Happ']; try by rewrite Ha.
    erewrite map_ext; [exact Happ|].
    intros h. simpl. by rewrite route_record_upper.
Qed.

Lemma on_paths_loop (this : loc) (ms : list string) (hs : list Handler)
    (ps : list string) (σ : Store R) :
  exists σ',
    for_each ps (fun p =>
      _ ← set_app this (with_path p);
      for_each ms (fun m =>
        for_each hs (fun handler =>
          app ← get_app this;
          addRoute this (toUpperCase m) (app_path app) handler))) σ = (tt, σ') /\
    apps σ' = from_option (fun p => <[this := with_path p (apps σ !!! this)]> (apps σ))
                          (apps σ) (last ps) /\
    appends this σ σ' (on_records (app_basePath (apps σ !!! this)) ms ps hs).
Proof.
  revert σ. induction ps as [|p ps IH]; intros σ.
  - exists σ. split; [reflexivity|]. split; [reflexivity|]. apply appends_nil.
  - cbn [for_each]. unfold mbind at 1, M_bind at 1.
    unfold mbind at 1, M_bind at 1, set_app at 1.
    set (σ0 := mkStore (<[this := with_path p (apps σ !!! this)]> (apps σ))
                       (arrays σ) (routers σ)).
    assert (H0 : apps σ0 !!! this = with_path p (apps σ !!! this))
      by apply lookup_total_insert_eq.
    destruct (on_methods_loop this ms hs σ0) as (σ1 & E & Ha & Happ).
    rewrite E. destruct (IH σ1) as (σ' & E' & Ha' & Happ').
    rewrite Ha, H0 in Ha', Happ'. rewrite H0 in Happ.
    cbn [with_path app_basePath app_path] in *.
    exists σ'. split; [exact E'|]. split.
    + destruct ps as [|q ps]; [rewrite Ha'; reflexivity|].
      rewrite Ha', (last_cons p). destruct (last (q :: ps)) as [x|] eqn:Hl.
      * cbn [from_option]. unfold σ0. cbn [apps]. by rewrite insert_insert_eq.
      * by apply last_None in Hl.
    + unfold on_records. cbn [map concat].
      eapply appends_trans; [| | |exact Happ'].
      * by rewrite Ha, H0.
      * by rewrite Ha, H0.
      * eapply appends_from; [| | | |exact Happ]; try reflexivity; by rewrite H0.
Qed.

(** X3: [app.on(method, path, ...handlers)] registers, path by path
    and for each path method by method, one record per handler, puts
    them in that order at the end of the route array and into the
    router, and leaves the last path on the application object; method
    and path may each be one string or an array of strings, and an
    empty array registers nothing.  Called with the empty string as
    method it does nothing at all. *)
Theorem on_registers (σ : Store R) (this : loc) (method path : string + list string)
    (handlers : list Handler) :
  on this (inl "") path handlers σ = (this, σ) /\
  (method <> inl "" ->
   (on this method path handlers σ).1 = this /\
   apps (on this method path handlers σ).2
   = from_option (fun p => <[this := with_path p (apps σ !!! this)]> (apps σ))
                 (apps σ) (last (flat1 path)) /\
   appends this σ (on this method path handlers σ).2
     (on_records (app_basePath (apps σ !!! this)) (flat1 method) (flat1 path)
                 handlers)).
Proof.
  split; [reflexivity|].
  intros Hm.
  destruct (on_paths_loop this (flat1 method) handlers (flat1 path) σ)
    as (σ' & E & Ha & Happ).
  assert (Eon : on this method path handlers σ = (this, σ')).
  { unfold on. rewrite decide_False by exact Hm.
    unfold mbind at 1, M_bind at 1. by rewrite E. }
  rewrite Eon. cbn [fst snd].
  split; [reflexivity|]. split; [exact Ha|exact Happ].
Qed.

(** X4: a method name is taken without regard to case, and
    [app.on(method, path, ...handlers)] with one method and one path
    does exactly what the function named after the method does:
    [app.on('get', p, h)] and [app.get(p, h)] give the same
    application and the same store. *)
Theorem on_is_verb (σ : Store R) (this : loc) (method p : string)
    (handlers : list Handler) :
  (forall path handler (τ : Store R),
     addRoute this (toUpperCase method) path handler τ
     = addRoute this method path handler τ) /\
  (method <> "" ->
   on this (inl method) (inl p) handlers σ
   = verb this method (inl p) (map inr handlers) σ).
Proof.
  split; [intros; apply addRoute_upper|].
  intros Hm.
  set (F := fun handler : Handler =>
              app ← get_app this; addRoute this method (app_path app) handler).
  set (σ0 := mkStore (<[this := with_path p (apps σ !!! this)]> (apps σ))
                     (arrays σ) (routers σ)).
  assert (Hverb : verb this method (inl p) (map inr handlers) σ
                  = (this, (for_each handlers F σ0).2)).
  { unfold verb. unfold mbind at 1, M_bind at 1, set_app at 1.
    unfold mbind at 1, M_bind at 1. rewrite for_each_args, handlers_of_inr.
    fold F σ0. by destruct (for_each handlers F σ0) as [[] σ1]. }
  assert (Hon : on this (inl method) (inl p) handlers σ
                = (this, (for_each handlers F σ0).2)).
  { unfold on. rewrite decide_False by (intros [= E]; by apply Hm).
    cbn [flat1 for_each].
    repeat (rewrite M_bind_eq; cbn beta).
    unfold set_app at 1. fold σ0.
    repeat (rewrite M_bind_eq; cbn beta).
    rewrite (for_each_ext handlers
               (fun handler =>
                  app ← get_app this;
                  addRoute this (toUpperCase method) (app_path app) handler) F)
      by (intros h τ; apply addRoute_upper).
    by destruct (for_each handlers F σ0) as [[] σ1]. }
  by rewrite Hverb, Hon.
Qed.

Lemma use_eq (σ : Store R) (this : loc) (arg1 : string + Handler)
    (handlers : list Handler) :
  let p := match arg1 with inl p => p | inr _ => "*" end in
  let hs := match arg1 with inl _ => handlers | inr h => h :: handlers end in
  let σ0 := mkStore (<[this := with_path p (apps σ !!! this)]> (apps σ))
                    (arrays σ) (routers σ) in
  use this arg1 handlers σ
  = (this, (for_each hs (fun handler =>
              app ← get_app this;
              addRoute this METHOD_NAME_ALL (app_path app) handler) σ0).2).
Proof.
  intros p hs σ0. unfold use.
  destruct arg1 as [q|h]; repeat (rewrite M_bind_eq; cbn beta);
    unfold set_app at 1; cbn beta iota; fold σ0;
    repeat (rewrite M_bind_eq; cbn beta); unfold mret at 1, M_ret at 1;
    fold p hs σ0; rewrite M_bind_eq;
    by destruct (for_each _ _ σ0) as [[] σ1].
Qed.

(** X5: [app.use(...)] registers its handlers for the method name that
    stands for all methods.  With a path first, [app.use(path,
    ...handlers)], the handlers go under that path; with a handler
    first, [app.use(h, ...handlers)], the path is the wildcard and [h]
    comes before the others.  The path stays on the application object.
    Where the lower-case name of the all-method upper-cases to the
    all-method name, [app.use(path, ...handlers)] and [app.all(path,
    ...handlers)] give the same store. *)
Theorem use_registers (σ : Store R) (this : loc) (handlers : list Handler) :
  (forall p,
     (use this (inl p) handlers σ).1 = this /\
     apps (use this (inl p) handlers σ).2
     = <[this := with_path p (apps σ !!! this)]> (apps σ) /\
     appends this σ (use this (inl p) handlers σ).2
       (map (route_record (app_basePath (apps σ !!! this)) METHOD_NAME_ALL p)
            handlers)) /\
  (forall h,
     (use this (inr h) handlers σ).1 = this /\
     apps (use this (inr h) handlers σ).2
     = <[this := with_path "*" (apps σ !!! this)]> (apps σ) /\
     appends this σ (use this (inr h) handlers σ).2
       (map (route_record (app_basePath (apps σ !!! this)) METHOD_NAME_ALL "*")
            (h :: handlers))) /\
  (toUpperCase METHOD_NAME_ALL_LOWERCASE = toUpperCase METHOD_NAME_ALL ->
   forall p,
     use this (inl p) handlers σ
     = verb this METHOD_NAME_ALL_LOWERCASE (inl p) (map inr handlers) σ).
Proof.
  assert (Hsum : forall arg1,
    let p := match arg1 with inl p => p | inr _ => "*" end in
    let hs := match arg1 with inl _ => handlers | inr h => h :: handlers end in
    (use this arg1 handlers σ).1 = this /\
    apps (use this arg1 handlers σ).2
    = <[this := with_path p (apps σ !!! this)]> (apps σ) /\
    appends this σ (use this arg1 handlers σ).2
      (map (route_record (app_basePath (apps σ !!! this)) METHOD_NAME_ALL p) hs)).
  { intros arg1 p hs. rewrite use_eq. fold p hs.
    set (σ0 := mkStore (<[this := with_path p (apps σ !!! this)]> (apps σ))
                       (arrays σ) (routers σ)).
    destruct (for_each_register this METHOD_NAME_ALL hs σ0) as (σ1 & E & Ha & Happ).
    rewrite E. cbn [fst snd].
    assert (H0 : apps σ0 !!! this = with_path p (apps σ !!! this))
      by apply lookup_total_insert_eq.
    rewrite H0 in Happ. cbn [with_path app_basePath app_path] in Happ.
    split; [reflexivity|]. split; [exact Ha|].
    eapply appends_from; [| | | |exact Happ]; try reflexivity; by rewrite H0. }
  split; [intros p; apply (Hsum (inl p))|].
  split; [intros h; apply (Hsum (inr h))|].
  intros Hall p.
  set (σ0 := mkStore (<[this := with_path p (apps σ !!! this)]> (apps σ))
                     (arrays σ) (routers σ)).
  assert (Hverb :
    verb this METHOD_NAME_ALL_LOWERCASE (inl p) (map inr handlers) σ
    = (this, (for_each handlers (fun handler =>
                app ← get_app this;
                addRoute this METHOD_NAME_ALL_LOWERCASE (app_path app) handler)
              σ0).2)).
  { unfold verb. unfold mbind at 1, M_bind at 1, set_app at 1. fold σ0.
    unfold mbind at 1, M_bind at 1. rewrite for_each_args, handlers_of_inr.
    by destruct (for_each handlers _ σ0) as [[] σ1]. }
  rewrite Hverb, use_eq. cbn zeta. fold σ0. symmetry.
  rewrite (for_each_ext handlers
             (fun handler =>
                app ← get_app this;
                addRoute this METHOD_NAME_ALL_LOWERCASE (app_path app) handler)
             (fun handler =>
                app ← get_app this;
                addRoute this METHOD_NAME_ALL (app_path app) handler)).
  - reflexivity.
  - intros h τ. unfold mbind, M_bind, get_app.
    rewrite <- (addRoute_upper this METHOD_NAME_ALL_LOWERCASE).
    rewrite Hall. apply addRoute_upper.
Qed.

End Registration.

(** * Further properties of the application objects *)

Section Objects.
Context {U : UrlUtils} {N : RouterNames} {P : Platform}.
Context {R : Type} {Rt : Router R} {C : Compose}.

Lemma same_identity_refl (a : Hono) : same_identity a a.
Proof. by repeat split. Qed.

Lemma same_identity_trans (a b c : Hono) :
  same_identity a b -> same_identity b c -> same_identity a c.
Proof. unfold same_identity. intros (?&?&?&?) (?&?&?&?). repeat split; congruence. Qed.

Lemma keeps_refl (σ : Store R) : keeps_identity σ σ.
Proof. intros l a H. exists a. split; [done | apply same_identity_refl]. Qed.

Lemma keeps_trans (σ1 σ2 σ3 : Store R) :
  keeps_identity σ1 σ2 -> keeps_identity σ2 σ3 -> keeps_identity σ1 σ3.
Proof.
  intros H12 H23 l a H.
  destruct (H12 l a H) as (a2 & H2 & I2).
  destruct (H23 l a2 H2) as (a3 & H3 & I3).
  exists a3. split; [done|]. by eapply same_identity_trans.
Qed.

Lemma keeps_same_apps (σ σ' : Store R) : apps σ' = apps σ -> keeps_identity σ σ'.
Proof.
  intros E l a H. exists a. split; [by rewrite E | apply same_identity_refl].
Qed.

Lemma keeps_insert_fresh (σ σ' : Store R) (x : Hono) :
  apps σ' = <[fresh (dom (apps σ)) := x]> (apps σ) -> keeps_identity σ σ'.
Proof.
  intros E l a H. exists a. split; [|apply same_identity_refl].
  rewrite E, lookup_insert_ne; [done|].
  intros El. by apply (fresh_app_ne σ l a H).
Qed.

Lemma bind_keeps {A B : Type} (m : M A) (k : A -> M B) (σ : Store R) :
  keeps_identity σ (m σ).2 -> (forall a σ1, keeps_identity σ1 (k a σ1).2) ->
  keeps_identity σ ((m ≫= k) σ).2.
Proof.
  intros Hm Hk. unfold mbind, M_bind. destruct (m σ) as [a σ1]. simpl in *.
  eapply keeps_trans; [exact Hm | apply Hk].
Qed.

Lemma for_each_keeps {A : Type} (l : list A) (f : A -> M unit) :
  (forall x σ, keeps_identity σ (f x σ).2) ->
  forall σ : Store R, keeps_identity σ (for_each l f σ).2.
Proof.
  intros Hf. induction l as [|x l IH]; intros σ; simpl.
  - apply keeps_refl.
  - apply bind_keeps; [apply Hf | intros _ σ1; apply IH].
Qed.

Lemma set_app_keeps (this : loc) (f : Hono -> Hono) (σ : Store R) :
  (forall a, same_identity a (f a)) -> keeps_identity σ (set_app this f σ).2.
Proof.
  intros Hf l a H. cbn [set_app snd apps].
  destruct (decide (l = this)) as [->|Hne].
  - exists (f a). rewrite lookup_insert_eq, (lookup_total_correct _ _ _ H).
    split; [done | apply Hf].
  - exists a. rewrite lookup_insert_ne by done.
    split; [done | apply same_identity_refl].
Qed.

Lemma registered_keeps (this : loc) (method : string) (handler : Handler)
    (σ : Store R) :
  keeps_identity σ
    ((get_app this ≫= fun app => addRoute this method (app_path app) handler) σ).2.
Proof. by apply keeps_same_apps. Qed.

Lemma basePath_apps (this : loc) (path : string) (σ : Store R) :
  exists x,
    (basePath this path σ).1 = fresh (dom (apps σ)) /\
    apps (basePath this path σ).2 = <[fresh (dom (apps σ)) := x]> (apps σ) /\
    arrays (basePath this path σ).2 = <[fresh (dom (arrays σ)) := []]> (arrays σ) /\
    routers (basePath this path σ).2 = routers σ.
Proof.
  unfold basePath, clone, get_app, set_app, new_Hono, mbind, M_bind, mret, M_ret.
  cbn [fst snd apps arrays routers]. eexists. split; [reflexivity|].
  split; [|split; reflexivity]. by rewrite !insert_insert_eq.
Qed.

Lemma route_apps (this : loc) (path : string) (app : option loc) (σ : Store R) :
  exists x, apps (route this path app σ).2 = <[fresh (dom (apps σ)) := x]> (apps σ).
Proof.
  destruct (basePath_apps this path σ) as (x & E1 & Ea & _).
  exists x. unfold route. rewrite M_bind_eq.
  destruct (basePath this path σ) as [subApp σ1]. cbn [fst snd] in *.
  destruct app as [app|]; [|exact Ea].
  rewrite M_bind_eq. unfold get_app at 1. rewrite M_bind_eq. unfold get_array at 1.
  rewrite M_bind_eq.
  destruct (for_each _ _ σ1) as [u σ2] eqn:Hloop.
  apply graft_loop in Hloop. destruct Hloop as [Hloop _].
  unfold mret, M_ret. cbn [snd]. by rewrite Hloop.
Qed.

Lemma step_keeps (op : Op) (σ : Store R) : keeps_identity σ (step op σ).
Proof.
  destruct op; unfold step; [| | | | | | | | |apply keeps_refl..].
  - eapply keeps_insert_fresh. reflexivity.
  - unfold verb. apply bind_keeps.
    + destruct args1; [by apply set_app_keeps | apply registered_keeps].
    + intros _ σ1. apply bind_keeps; [|intros; apply keeps_refl].
      apply for_each_keeps. intros [s|h] σ2;
        [apply keeps_refl | apply registered_keeps].
  - unfold on. destruct (decide (method = inl "")); [apply keeps_refl|].
    apply bind_keeps; [|intros; apply keeps_refl].
    apply for_each_keeps. intros p σ1.
    apply bind_keeps; [by apply set_app_keeps|]. intros _ σ2.
    apply for_each_keeps. intros m σ3.
    apply for_each_keeps. intros h σ4. apply registered_keeps.
  - unfold use. apply bind_keeps.
    + destruct arg1; (apply bind_keeps; [by apply set_app_keeps|]);
        intros; apply keeps_refl.
    + intros hs σ1. apply bind_keeps; [|intros; apply keeps_refl].
      apply for_each_keeps. intros h σ2. apply registered_keeps.
  - edestruct route_apps as [x E]. eapply keeps_insert_fresh. exact E.
  - edestruct basePath_apps as (x & _ & E & _).
    eapply keeps_insert_fresh. exact E.
  - unfold onError. apply bind_keeps; [by apply set_app_keeps|].
    intros; apply keeps_refl.
  - unfold notFound. apply bind_keeps; [by apply set_app_keeps|].
    intros; apply keeps_refl.
  - unfold mount. apply bind_keeps; [apply keeps_refl|]. intros a σ1.
    apply bind_keeps; [by apply keeps_same_apps|]. intros; apply keeps_refl.
Qed.

Lemma steps_keeps (ops : list Op) (σ : Store R) : keeps_identity σ (steps ops σ).
Proof.
  revert σ. induction ops as [|op ops IH]; intros σ; [apply keeps_refl|].
  cbn [steps foldl]. eapply keeps_trans; [apply step_keeps | apply IH].
Qed.

(** X6: no sequence of operations takes an application object out of
    the store or gives it another router, another route array, another
    base path or another path extractor: these are fixed when the
    object is made.  (The stored path and the two handlers are what
    operations change.) *)
Theorem application_identity_fixed (ops : list Op) (σ : Store R) (l : loc)
    (a : Hono) :
  apps σ !! l = Some a ->
  exists a', apps (steps ops σ) !! l = Some a' /\
             app_router a' = app_router a /\ app_routes a' = app_routes a /\
             app_basePath a' = app_basePath a /\ app_getPath a' = app_getPath a.
Proof. apply steps_keeps. Qed.

(** X7: the application derived by [basePath] and its parent go on
    sharing: after any sequence of operations, made through either
    object or any other, a method and path match the same handlers
    through the derivative as through the parent, both objects list the
    same route array, and the derivative still has the merged base
    path. *)
Theorem derivative_matches_like_parent (σ : Store R) (this : loc) (app : Hono)
    (p : string) (ops : list Op) (method q : string) :
  apps σ !! this = Some app ->
  let subApp := (basePath this p σ).1 in
  let τ := steps ops (basePath this p σ).2 in
  matchRoute τ subApp method q = matchRoute τ this method q /\
  arrays τ !!! app_routes (apps τ !!! subApp)
  = arrays τ !!! app_routes (apps τ !!! this) /\
  app_basePath (apps τ !!! subApp) = mergePath (app_basePath app) p /\
  app_basePath (apps τ !!! this) = app_basePath app.
Proof.
  intros Happ subApp τ.
  pose proof (basePath_eq σ this app p Happ) as Hb.
  pose proof (fresh_app_ne σ this app Happ) as Hne.
  assert (Hsub : apps (basePath this p σ).2 !! subApp = Some (derived app p)).
  { unfold subApp. rewrite Hb. apply lookup_insert_eq. }
  assert (Hthis : apps (basePath this p σ).2 !! this = Some app).
  { rewrite Hb. cbn [snd apps]. by rewrite lookup_insert_ne. }
  destruct (steps_keeps ops _ _ _ Hsub) as (a1 & H1 & R1 & A1 & B1 & _).
  destruct (steps_keeps ops _ _ _ Hthis) as (a2 & H2 & R2 & A2 & B2 & _).
  fold τ in H1, H2. unfold matchRoute.
  rewrite (lookup_total_correct _ _ _ H1), (lookup_total_correct _ _ _ H2).
  rewrite R1, R2, A1, A2, B1, B2. by repeat split.
Qed.

(** X8: [basePath] nests.  The derivative of a derivative has the two
    prefixes merged onto the base path one after the other and still
    holds the router and route array of the first application; the
    objects it was derived from are left as they were.  Where the path
    builder is associative on the three paths it is the very object
    that one [basePath] call with the merged prefix would have made. *)
Theorem basePath_nests (σ : Store R) (this : loc) (app : Hono) (p q : string) :
  apps σ !! this = Some app ->
  let s1 := (basePath this p σ).1 in
  let σ1 := (basePath this p σ).2 in
  let s2 := (basePath s1 q σ1).1 in
  let σ2 := (basePath s1 q σ1).2 in
  app_basePath (apps σ2 !!! s2) = mergePath (mergePath (app_basePath app) p) q /\
  app_router (apps σ2 !!! s2) = app_router app /\
  app_routes (apps σ2 !!! s2) = app_routes app /\
  app_getPath (apps σ2 !!! s2) = app_getPath app /\
  apps σ2 !!! s1 = derived app p /\
  apps σ2 !!! this = app /\
  (mergePath (mergePath (app_basePath app) p) q
   = mergePath (app_basePath app) (mergePath p q) ->
   apps σ2 !!! s2
   = apps (basePath this (mergePath p q) σ).2 !!! (basePath this (mergePath p q) σ).1).
Proof.
  intros Happ s1 σ1 s2 σ2.
  pose proof (basePath_eq σ this app p Happ) as Hb1.
  pose proof (fresh_app_ne σ this app Happ) as Hne.
  assert (H1 : apps σ1 !! s1 = Some (derived app p)).
  { unfold σ1, s1. rewrite Hb1. apply lookup_insert_eq. }
  assert (Hthis1 : apps σ1 !! this = Some app).
  { unfold σ1. rewrite Hb1. cbn [snd apps]. by rewrite lookup_insert_ne. }
  pose proof (basePath_eq σ1 s1 _ q H1) as Hb2.
  pose proof (fresh_app_ne σ1 s1 _ H1) as Hne1.
  pose proof (fresh_app_ne σ1 this _ Hthis1) as Hne2.
  assert (H2 : apps σ2 !!! s2 = derived (derived app p) q).
  { unfold σ2, s2. rewrite Hb2. apply lookup_total_insert_eq. }
  rewrite H2. do 4 (split; [reflexivity|]).
  split.
  { unfold σ2. rewrite Hb2. cbn [snd apps].
    rewrite lookup_total_insert_ne by done. by apply lookup_total_correct. }
  split.
  { unfold σ2. rewrite Hb2. cbn [snd apps].
    rewrite lookup_total_insert_ne by done. by apply lookup_total_correct. }
  intros Hassoc. rewrite (basePath_eq σ this app _ Happ). cbn [fst snd apps].
  rewrite lookup_total_insert_eq. unfold derived. cbn. by rewrite Hassoc.
Qed.

Lemma graft_loop_appends (app subApp : loc) (routes : list RouterRoute)
    (σ : Store R) (u : unit) (σ' : Store R) :
  for_each routes (fun r =>
    a ← get_app app;
    let handler :=
      match app_errorHandler a with
      | DefaultErrorHandler => route_handler r
      | CustomErrorHandler _ => composed_handler app r
      end in
    addRoute subApp (route_method r) (route_path r) handler) σ = (u, σ') ->
  appends subApp σ σ'
    (map (grafted app (app_errorHandler (apps σ !!! app))
                  (app_basePath (apps σ !!! subApp))) routes).
Proof.
  revert σ. induction routes as [|r routes IH]; intros σ E.
  - inversion E; subst. apply appends_nil.
  - cbn [for_each] in E. unfold mbind at 1, M_bind at 1 in E.
    unfold mbind at 1, M_bind at 1, get_app at 1 in E.
    cbn beta iota zeta in E.
    match type of E with
    | context [addRoute subApp ?m ?p ?h σ] =>
        destruct (addRoute_appends subApp m p h σ) as [Ha Happ];
        destruct (addRoute subApp m p h σ) as [[] σ1]
    end.
    cbn [snd] in *. apply IH in E. rewrite Ha in E.
    change (map ?f (r :: routes)) with ([f r] ++ map f routes)%list.
    eapply appends_trans; [| |exact Happ|exact E]; by rewrite Ha.
Qed.

(** X9: [app.route(path, sub)] returns [app] itself and changes
    neither the grafted application nor any other application object
    that existed.  The grafted records go to the parent's router in the
    order of the sub-application's table, and no other router and no
    other existing route array is touched: a sub-application with a
    table and router of its own keeps them as they were. *)
Theorem route_leaves_others (σ : Store R) (this app : loc) (parent sub : Hono)
    (path : string) :
  apps σ !! this = Some parent ->
  apps σ !! app = Some sub ->
  is_Some (arrays σ !! app_routes parent) ->
  is_Some (arrays σ !! app_routes sub) ->
  let σ' := (route this path (Some app) σ).2 in
  (route this path (Some app) σ).1 = this /\
  (forall l a, apps σ !! l = Some a -> apps σ' !! l = Some a) /\
  routers σ' !! app_router parent
  = add_all (map (grafted app (app_errorHandler sub)
                          (mergePath (app_basePath parent) path))
                 (arrays σ !!! app_routes sub))
    <$> routers σ !! app_router parent /\
  (forall x, x <> app_router parent -> routers σ' !! x = routers σ !! x) /\
  (forall a, is_Some (arrays σ !! a) -> a <> app_routes parent ->
             arrays σ' !! a = arrays σ !! a).
Proof.
  intros Hthis Happ Harrp Harrs σ'.
  pose proof (basePath_eq σ this parent path Hthis) as Hb.
  pose proof (fresh_app_ne σ app sub Happ) as Hne2.
  pose proof (fresh_array_ne σ _ Harrs) as Hna2.
  assert (E : exists σ2,
    route this path (Some app) σ = (this, σ2) /\
    apps σ2 = apps (basePath this path σ).2 /\
    appends (fresh (dom (apps σ))) (basePath this path σ).2 σ2
      (map (grafted app (app_errorHandler sub)
                    (mergePath (app_basePath parent) path))
           (arrays σ !!! app_routes sub))).
  { unfold route. rewrite M_bind_eq, Hb.
    set (subApp := fresh (dom (apps σ))). set (σ1 := mkStore _ _ _).
    assert (Hsub1 : apps σ1 !!! subApp = derived parent path)
      by apply lookup_total_insert_eq.
    assert (Happ1 : apps σ1 !!! app = sub).
    { unfold σ1. cbn [apps]. rewrite lookup_total_insert_ne by done.
      by apply lookup_total_correct. }
    rewrite M_bind_eq. unfold get_app at 1. rewrite M_bind_eq.
    unfold get_array at 1. rewrite Happ1, M_bind_eq.
    destruct (for_each _ _ σ1) as [u σ2] eqn:Hloop.
    pose proof (graft_loop _ _ _ _ _ _ Hloop) as [Ha _].
    apply graft_loop_appends in Hloop.
    rewrite Hsub1, Happ1 in Hloop. cbn [derived app_basePath] in Hloop.
    exists σ2. split; [reflexivity|]. split; [exact Ha|].
    assert (Es : arrays σ1 !!! app_routes sub = arrays σ !!! app_routes sub).
    { unfold σ1. cbn [arrays]. by rewrite lookup_total_insert_ne. }
    by rewrite Es in Hloop. }
  destruct E as (σ2 & E & Ha & Happs). unfold σ'. rewrite E. cbn [fst snd].
  rewrite Hb in Ha, Happs. cbn [snd] in Ha, Happs.
  unfold appends in Happs. cbn [apps arrays routers] in Happs.
  rewrite lookup_total_insert_eq in Happs.
  cbn [derived app_routes app_router] in Happs.
  destruct Happs as (_ & Ho & Hr & Hp).
  split; [reflexivity|]. split.
  { intros l a Hl. rewrite Ha. cbn [apps]. rewrite lookup_insert_ne; [done|].
    intros El. by apply (fresh_app_ne σ l a Hl). }
  split; [exact Hr|]. split; [exact Hp|].
  intros a Hlive Hna. rewrite (Ho a Hna). apply lookup_insert_ne.
  intros El. by apply (fresh_array_ne σ a Hlive).
Qed.

(** X10: a new application starts with the base path and stored path
    "/", the built-in handlers and an empty route array that no
    application had before; making it changes no existing object, and
    routes registered on it touch no array that existed.  Its router,
    though, is the one it was given: an application already built on
    that router matches a route registered on the new one. *)
Theorem constructor_fresh (σ : Store R) (options : HonoOptions) :
  let this := (new_Hono options σ).1 in
  let σ' := (new_Hono options σ).2 in
  let a := apps σ' !!! this in
  (apps σ !! this = None /\ apps σ' !! this = Some a /\
   forall l, l <> this -> apps σ' !! l = apps σ !! l) /\
  (app_basePath a = "/" /\ app_path a = "/" /\
   app_router a = opt_router options /\
   app_notFoundHandler a = DefaultNotFoundHandler /\
   app_errorHandler a = DefaultErrorHandler) /\
  (arrays σ !! app_routes a = None /\ arrays σ' !! app_routes a = Some [] /\
   routers σ' = routers σ) /\
  (forall method p handler x,
     is_Some (arrays σ !! x) ->
     arrays (addRoute this method p handler σ').2 !! x = arrays σ !! x) /\
  (forall method p handler old rt m q,
     app_router (apps σ !!! old) = opt_router options ->
     apps σ !! old = Some (apps σ !!! old) ->
     routers σ !! opt_router options = Some rt ->
     matchRoute (addRoute this method p handler σ').2 old m q
     = router_match m q
         (router_add (toUpperCase method) (mergePath "/" p)
            (handler, route_record "/" method p handler) rt)).
Proof.
  intros this σ' a.
  assert (Ea : a = mkHono (opt_router options)
                 (if default true (opt_strict options)
                  then default getPath (opt_getPath options) else getPathNoStrict)
                 "/" "/" (fresh (dom (arrays σ)))
                 DefaultNotFoundHandler DefaultErrorHandler).
  { unfold a, σ', this, new_Hono. cbn [fst snd apps].
    by rewrite lookup_total_insert_eq. }
  assert (Hfa : arrays σ !! fresh (dom (arrays σ)) = None).
  { apply not_elem_of_dom, is_fresh. }
  assert (Hfl : apps σ !! fresh (dom (apps σ)) = None).
  { apply not_elem_of_dom, is_fresh. }
  split.
  { split; [exact Hfl|]. split.
    - unfold a. apply lookup_lookup_total. unfold σ', this, new_Hono.
      cbn [fst snd apps]. rewrite lookup_insert_eq. eauto.
    - intros l Hl. unfold σ', new_Hono. cbn [snd apps].
      by rewrite lookup_insert_ne. }
  rewrite Ea. cbn [app_basePath app_path app_router app_notFoundHandler
                   app_errorHandler app_routes].
  split; [by repeat split|]. split.
  { split; [exact Hfa|]. split; [|reflexivity].
    unfold σ', new_Hono. cbn [snd arrays]. apply lookup_insert_eq. }
  split.
  - intros method p handler x Hx. rewrite addRoute_eq. cbn [snd arrays].
    fold a. rewrite Ea. cbn [app_routes].
    assert (x <> fresh (dom (arrays σ))) by (by apply fresh_array_ne).
    rewrite lookup_insert_ne by done.
    unfold σ', new_Hono. cbn [snd arrays]. by rewrite lookup_insert_ne.
  - intros method p handler old rt m q Hr Hold Hrt.
    assert (Hne : old <> this).
    { intros ->. unfold this in Hold. cbn [fst new_Hono] in Hold.
      by rewrite Hfl in Hold. }
    unfold matchRoute. rewrite addRoute_eq. cbn [snd apps routers].
    fold a. rewrite Ea. cbn [app_router app_basePath].
    assert (Eold : apps σ' !!! old = apps σ !!! old).
    { unfold σ', new_Hono. cbn [snd apps]. by rewrite lookup_total_insert_ne. }
    rewrite Eold, Hr, lookup_alter_eq.
    unfold σ', new_Hono. cbn [snd routers]. rewrite Hrt. reflexivity.
Qed.

End Objects.

(** * Further properties of serving a request *)

Section Serving.
Context {U : UrlUtils} {N : RouterNames} {P : Platform}.
Context {R : Type} {Rt : Router R}.

Lemma responds_new (r : HonoRequest) (e : Bindings) (x : option ExecutionContext) :
  responds (new_Context r e x).
Proof. intros H. discriminate. Qed.

Lemma responds_set_res (r : Response) (c : Context) : responds (set_res r c).
Proof. intros _. simpl. eauto. Qed.

(** No step of a handler program can leave the context finalized
    without a response, when [next()] cannot. *)
Lemma exec_responds {A : Type} (ehs : loc -> ErrorHandler) (next : Next)
    (p : Prog A) (c : Context) :
  (forall c, responds c -> responds (next c).2) ->
  responds c -> responds (exec ehs next p c).2.
Proof.
  intros Hnext. revert c.
  induction p as [a|t|k IH|r k IH|k IH|app k IH]; intros c Hc; simpl; auto.
  - apply IH, responds_set_res.
  - specialize (Hnext c Hc). destruct (next c) as [o c']. by apply IH.
Qed.

Lemma single_next_responds (nf : NotFoundHandler) (c : Context) :
  responds c -> responds (single_next nf c).2.
Proof. intros _. apply responds_set_res. Qed.

Lemma handleError_answers (C : Compose) (σ : Store R) (this : loc) (t : Thrown)
    (c : Context) :
  handleError σ this t c <> Normal None.
Proof. by destruct t. Qed.

Lemma dispatch_composed_answers (C : Compose) (σ : Store R) (this : loc)
    (matchResult : MatchResult) (r : HonoRequest) (e : Bindings)
    (x : option ExecutionContext) :
  dispatch_composed σ this matchResult (new_Context r e x) <> Normal None.
Proof.
  unfold dispatch_composed.
  pose proof (exec_responds (error_handlers σ) no_next
                (compose matchResult (Some (app_errorHandler (apps σ !!! this)))
                   (Some (app_notFoundHandler (apps σ !!! this))) None)
                (new_Context r e x) (fun c H => H) (responds_new r e x)) as Hr.
  destruct (exec _ _ _ _) as [[u|t] c']; cbn [snd] in Hr.
  - destruct (finalized c') eqn:Hf; [|by apply handleError_answers].
    destruct (Hr Hf) as [resp ->]. discriminate.
  - by apply handleError_answers.
Qed.

(** X11: [dispatch] completes without a response in one case only: the
    method is not HEAD, exactly one handler matched, calling it does not
    give a promise, and it returned nothing.  A HEAD request, a handler
    that returns a promise and the composed chain, whatever [compose]
    does, end in a response or in a thrown value. *)
Theorem dispatch_undefined_iff (C : Compose) (σ : Store R) (this : loc)
    (request : Request) (x : option ExecutionContext) (env : Bindings)
    (method : string) :
  let app := apps σ !!! this in
  let path := app_getPath app request env in
  let matchResult := matchRoute σ this method path in
  let c := new_Context (mkHonoRequest request path (map snd matchResult)) env x in
  dispatch σ this request x env method = Normal None <->
  method <> "HEAD" /\
  exists h r ps c',
    matchResult = [((h, r), ps)] /\ returnsPromise h = false /\
    exec (error_handlers σ) (single_next (app_notFoundHandler app))
         (handler_body h) c = (Normal None, c').
Proof.
  intros app path matchResult c. unfold dispatch. split.
  - destruct (decide (method = "HEAD")) as [->|Hm].
    { destruct (dispatch_method _ _ _ _ _ _); discriminate. }
    intros H. split; [exact Hm|]. revert H.
    unfold dispatch_method. fold app path matchResult c.
    destruct matchResult as [|[[h r] ps] [|y l]] eqn:Hmatch;
      try (intros H; by apply dispatch_composed_answers in H).
    unfold dispatch_single. fold app.
    pose proof (exec_responds (error_handlers σ)
                  (single_next (app_notFoundHandler app)) (handler_body h) c
                  (single_next_responds _) (responds_new _ _ _)) as Hr.
    destruct (exec _ _ _ _) as [[result|t] c'] eqn:Hexec; cbn [snd] in Hr.
    + destruct (returnsPromise h) eqn:Hp.
      * destruct result as [resp|]; [discriminate|].
        destruct (finalized c') eqn:Hf; [|discriminate].
        destruct (Hr Hf) as [resp ->]. discriminate.
      * intros [= ->]. by exists h, r, ps, c'.
    + intros H. by apply handleError_answers in H.
  - intros [Hm (h & r & ps & c' & Hmatch & Hp & Hexec)].
    rewrite decide_False by done.
    unfold dispatch_method. fold app path matchResult c.
    revert Hexec. generalize c. rewrite Hmatch. intros c0 Hexec.
    unfold dispatch_single. fold app. rewrite Hexec, Hp. reflexivity.
Qed.

(** X12: [onError] and [notFound] each return the application and
    change one field of it and nothing else in the store: the other
    handler stays, the order of the two calls does not matter, a second
    [onError] replaces the first, and every other application, route
    array and router is as it was.  From then on a single matched
    handler that throws an [Error] is answered by the installed error
    handler, and one that returns a promise of nothing with the context
    not finalized by the installed not-found handler. *)
Theorem handlers_installed (C : Compose) (σ : Store R) (this : loc) (app : Hono)
    (f : Error -> Context -> Response) (g : Context -> Response) :
  apps σ !! this = Some app ->
  let σ' := (notFound this g (onError this f σ).2).2 in
  ((onError this f σ).1 = this /\ (notFound this g σ).1 = this) /\
  σ' = (onError this f (notFound this g σ).2).2 /\
  (forall f', (onError this f' (onError this f σ).2).2 = (onError this f' σ).2) /\
  (arrays σ' = arrays σ /\ routers σ' = routers σ /\
   forall l, l <> this -> apps σ' !! l = apps σ !! l) /\
  (forall method p, matchRoute σ' this method p = matchRoute σ this method p) /\
  (forall h c e c',
     exec (error_handlers σ') (single_next (CustomNotFoundHandler g))
          (handler_body h) c = (Abrupt (ThrownError e), c') ->
     dispatch_single σ' this h c = Normal (Some (f e c'))) /\
  (forall h c c',
     returnsPromise h = true ->
     exec (error_handlers σ') (single_next (CustomNotFoundHandler g))
          (handler_body h) c = (Normal None, c') ->
     finalized c' = false ->
     dispatch_single σ' this h c = Normal (Some (g c'))).
Proof.
  intros Happ σ'.
  pose proof (onError_eq σ this app f Happ) as E1.
  pose proof (notFound_eq σ this app g Happ) as E2.
  assert (H1 : apps (onError this f σ).2 !! this
               = Some (with_errorHandler (CustomErrorHandler f) app)).
  { rewrite E1. apply lookup_insert_eq. }
  assert (H2 : apps (notFound this g σ).2 !! this
               = Some (with_notFoundHandler (CustomNotFoundHandler g) app)).
  { rewrite E2. apply lookup_insert_eq. }
  assert (Eσ' : σ' = mkStore
            (<[this := mkHono (app_router app) (app_getPath app) (app_basePath app)
                         (app_path app) (app_routes app)
                         (CustomNotFoundHandler g) (CustomErrorHandler f)]> (apps σ))
            (arrays σ) (routers σ)).
  { unfold σ'. rewrite (notFound_eq _ this _ g H1), E1. cbn [snd apps arrays routers].
    by rewrite insert_insert_eq. }
  assert (Ethis : apps σ' !!! this
                  = mkHono (app_router app) (app_getPath app) (app_basePath app)
                      (app_path app) (app_routes app)
                      (CustomNotFoundHandler g) (CustomErrorHandler f)).
  { rewrite Eσ'. apply lookup_total_insert_eq. }
  split; [by rewrite E1, E2|]. split.
  { rewrite Eσ', (onError_eq _ this _ f H2), E2. cbn [snd apps arrays routers].
    by rewrite insert_insert_eq. }
  split.
  { intros f'. rewrite (onError_eq _ this _ f' H1), E1, (onError_eq σ this app f' Happ).
    cbn [snd apps arrays routers]. by rewrite insert_insert_eq. }
  split.
  { rewrite Eσ'. cbn [apps arrays routers]. do 2 (split; [reflexivity|]).
    intros l Hl. by rewrite lookup_insert_ne. }
  split.
  { intros method p. unfold matchRoute. rewrite Ethis.
    rewrite (lookup_total_correct _ _ _ Happ). by rewrite Eσ'. }
  split.
  - intros h c e c' Hexec. unfold dispatch_single. rewrite Ethis.
    cbn [app_notFoundHandler]. rewrite Hexec. unfold handleError.
    by rewrite Ethis.
  - intros h c c' Hp Hexec Hf. unfold dispatch_single. rewrite Ethis.
    cbn [app_notFoundHandler]. by rewrite Hexec, Hp, Hf.
Qed.


(** X14: the wrapper [route] registers for a sub-application with an
    error handler of its own reads [app.errorHandler] when it is called,
    not when the route was grafted: after a later [onError] on the
    sub-application the wrapper hands the new handler to [compose],
    whatever [compose] is.  With the composition engine modelled from
    the spec, an [Error] thrown by the wrapped handler is then answered
    by the new handler, and the response is assigned to the context. *)
Theorem wrapper_reads_handler_late (σ : Store R) (this app : loc) (sub : Hono)
    (path : string) (g : Error -> Context -> Response) (r : RouterRoute)
    (next : Next) (c : Context) :
  apps σ !! app = Some sub ->
  (forall C : Compose,
     let σ2 := (onError app g (route this path (Some app) σ).2).2 in
     apps σ2 !!! app = with_errorHandler (CustomErrorHandler g) sub /\
     exec (error_handlers σ2) next (handler_body (composed_handler app r)) c
     = exec (error_handlers σ2) next
         (bind (compose [] (Some (CustomErrorHandler g)) None
                        (Some (handler_body (route_handler r))))
               (fun _ => GetContext (fun c => Ret (res c)))) c) /\
  (let σ2 := (onError app g
                (route (C := compose_model) this path (Some app) σ).2).2 in
   (forall e c',
      exec (error_handlers σ2) next (handler_body (route_handler r)) c
      = (Abrupt (ThrownError e), c') ->
      exec (error_handlers σ2) next
           (handler_body (composed_handler (C := compose_model) app r)) c
      = (Normal (Some (g e c')), set_res (g e c') c')) /\
   (forall v c',
      exec (error_handlers σ2) next (handler_body (route_handler r)) c
      = (Abrupt (ThrownValue v), c') ->
      exec (error_handlers σ2) next
           (handler_body (composed_handler (C := compose_model) app r)) c
      = (Abrupt (ThrownValue v), c')) /\
   (forall response c',
      exec (error_handlers σ2) next (handler_body (route_handler r)) c
      = (Normal (Some response), c') ->
      finalized c' = false ->
      exec (error_handlers σ2) next
           (handler_body (composed_handler (C := compose_model) app r)) c
      = (Normal (Some response), set_res response c'))).
Proof.
  intros Happ.
  assert (Hlate : forall C : Compose,
    error_handlers (onError app g (route this path (Some app) σ).2).2 app
    = CustomErrorHandler g /\
    apps (onError app g (route this path (Some app) σ).2).2 !!! app
    = with_errorHandler (CustomErrorHandler g) sub).
  { intros C. destruct (route_apps (C := C) this path (Some app) σ) as [y Ey].
    assert (H1 : apps (route this path (Some app) σ).2 !! app = Some sub).
    { rewrite Ey, lookup_insert_ne; [done|].
      intros E. by apply (fresh_app_ne σ app sub Happ). }
    unfold error_handlers. rewrite (onError_eq _ app sub g H1).
    cbn [snd apps]. by rewrite lookup_total_insert_eq. }
  split.
  - intros C σ2. destruct (Hlate C) as [Heh Ha]. split; [exact Ha|].
    cbn [composed_handler handler_body exec]. fold σ2 in Heh. by rewrite Heh.
  - intros σ2. destruct (Hlate compose_model) as [Heh _]. fold σ2 in Heh.
    repeat split.
    + intros e c' Hexec. cbn [composed_handler handler_body exec].
      rewrite Heh, exec_bind. unfold compose, compose_model.
      rewrite exec_seq_catch. cbn [chain chain_end]. rewrite exec_bind, Hexec.
      reflexivity.
    + intros v c' Hexec. cbn [composed_handler handler_body exec].
      rewrite Heh, exec_bind. unfold compose, compose_model.
      rewrite exec_seq_catch. cbn [chain chain_end]. rewrite exec_bind, Hexec.
      reflexivity.
    + intros response c' Hexec Hf. cbn [composed_handler handler_body exec].
      rewrite Heh, exec_bind. unfold compose, compose_model.
      rewrite exec_seq_catch. cbn [chain chain_end]. rewrite exec_bind, Hexec.
      cbn [keep_result exec]. rewrite Hf. reflexivity.
Qed.

End Serving.

(** * Further properties of the route tables and the entry points *)

Section Tables.
Context {U : UrlUtils} {N : RouterNames} {P : Platform}.
Context {R : Type} {Rt : Router R} {C : Compose}.

Lemma upper_same_arrays (σ σ' : Store R) :
  arrays σ' = arrays σ -> upper_methods σ -> upper_methods σ'.
Proof. intros E H a l r. rewrite E. apply H. Qed.

Lemma upper_insert_nil (σ σ' : Store R) (x : loc) :
  arrays σ' = <[x := []]> (arrays σ) -> upper_methods σ -> upper_methods σ'.
Proof.
  intros E H a l r. rewrite E. destruct (decide (a = x)) as [->|Hne].
  - rewrite lookup_insert_eq. intros [= <-] Hin. by apply elem_of_nil in Hin.
  - rewrite lookup_insert_ne by done. apply H.
Qed.

Lemma addRoute_upper_methods (this : loc) (method path : string)
    (handler : Handler) (σ : Store R) :
  upper_methods σ -> upper_methods (addRoute this method path handler σ).2.
Proof.
  intros H a l r. rewrite addRoute_eq. cbn [snd arrays].
  set (x := app_routes (apps σ !!! this)).
  destruct (decide (a = x)) as [->|Hne].
  - rewrite lookup_insert_eq. intros [= <-] Hin.
    apply elem_of_app in Hin as [Hin|Hin].
    + rewrite lookup_total_alt in Hin.
      destruct (arrays σ !! x) as [l0|] eqn:Hx; cbn in Hin.
      * by apply (H x l0).
      * by apply elem_of_nil in Hin.
    + apply list_elem_of_singleton in Hin as ->. apply toUpperCase_idem.
  - rewrite lookup_insert_ne by done. apply H.
Qed.

Lemma bind_upper {A B : Type} (m : M A) (k : A -> M B) (σ : Store R) :
  (upper_methods σ -> upper_methods (m σ).2) ->
  (forall a σ1, upper_methods σ1 -> upper_methods (k a σ1).2) ->
  upper_methods σ -> upper_methods ((m ≫= k) σ).2.
Proof.
  intros Hm Hk H. unfold mbind, M_bind. destruct (m σ) as [a σ1]. simpl in *.
  by apply Hk, Hm.
Qed.

Lemma for_each_upper {A : Type} (l : list A) (f : A -> M unit) :
  (forall x σ, upper_methods σ -> upper_methods (f x σ).2) ->
  forall σ : Store R, upper_methods σ -> upper_methods (for_each l f σ).2.
Proof.
  intros Hf. induction l as [|x l IH]; intros σ H; simpl; [exact H|].
  apply bind_upper; [apply Hf | intros _ σ1; apply IH | exact H].
Qed.

Lemma set_app_upper (this : loc) (f : Hono -> Hono) (σ : Store R) :
  upper_methods σ -> upper_methods (set_app this f σ).2.
Proof. by apply upper_same_arrays. Qed.

Lemma registered_upper (this : loc) (method : string) (handler : Handler)
    (σ : Store R) :
  upper_methods σ ->
  upper_methods
    ((get_app this ≫= fun app => addRoute this method (app_path app) handler) σ).2.
Proof. apply addRoute_upper_methods. Qed.

Lemma basePath_upper (this : loc) (path : string) (σ : Store R) :
  upper_methods σ -> upper_methods (basePath this path σ).2.
Proof.
  destruct (basePath_apps this path σ) as (x & _ & _ & E & _).
  intros H. exact (upper_insert_nil _ _ _ E H).
Qed.

Lemma step_upper (op : Op) (σ : Store R) :
  upper_methods σ -> upper_methods (step op σ).
Proof.
  destruct op; unfold step; [| | | | | | | | |done..].
  - by apply (upper_insert_nil σ _ (fresh (dom (arrays σ)))).
  - unfold verb. apply bind_upper.
    + destruct args1; [apply set_app_upper | apply registered_upper].
    + intros _ σ1. apply bind_upper; [|by intros].
      apply for_each_upper. intros [s|h] σ2; [done | apply registered_upper].
  - unfold on. destruct (decide (method = inl "")); [done|].
    apply bind_upper; [|by intros].
    apply for_each_upper. intros p σ1.
    apply bind_upper; [apply set_app_upper|]. intros _ σ2.
    apply for_each_upper. intros m σ3.
    apply for_each_upper. intros h σ4. apply registered_upper.
  - unfold use. apply bind_upper.
    + destruct arg1; (apply bind_upper; [apply set_app_upper|]); by intros.
    + intros hs σ1. apply bind_upper; [|by intros].
      apply for_each_upper. intros h σ2. apply registered_upper.
  - unfold route. apply bind_upper; [apply basePath_upper|]. intros subApp σ1.
    destruct app as [app|]; [|done].
    apply bind_upper; [done|]. intros a σ2.
    apply bind_upper; [done|]. intros routes σ3.
    apply bind_upper; [|by intros].
    apply for_each_upper. intros r σ4.
    apply bind_upper; [done|]. intros a' σ5. apply addRoute_upper_methods.
  - apply basePath_upper.
  - unfold onError. apply bind_upper; [apply set_app_upper | by intros].
  - unfold notFound. apply bind_upper; [apply set_app_upper | by intros].
  - unfold mount. apply bind_upper; [done|]. intros a σ1.
    apply bind_upper; [apply addRoute_upper_methods | by intros].
Qed.

(** X15: whatever case a method name is registered in, through a verb
    function, [on], [use], [mount] or a graft by [route], the record
    kept in the route array has it in upper case: when all records have
    upper-case method names, they still have after any sequence of
    operations. *)
Theorem route_methods_upper (ops : list Op) (σ : Store R) :
  upper_methods σ -> upper_methods (steps ops σ).
Proof.
  revert σ. induction ops as [|op ops IH]; intros σ H; [exact H|].
  cbn [steps foldl]. by apply IH, step_upper.
Qed.

Lemma is_http_url_localhost (s : string) :
  is_http_url ("http://localhost" +:+ s) = true.
Proof. reflexivity. Qed.

(** X16: the entry points.  [request] with a path that is not an
    [http(s)://] URL serves the request made for
    [http://localhost] followed by the path merged onto "/", which is
    also what it serves when given that URL itself; an absolute URL is
    used as it is; a [Request] without init goes to [fetch] unchanged.
    [fetch] and the listener added by [fire] dispatch with the request's
    own method, the listener with the event as execution context and no
    bindings. *)
Theorem entry_points (σ : Store R) (this : loc) (requestInit : option RequestInit)
    (Env : Bindings) (x : option ExecutionContext) :
  (forall input,
     is_http_url input = false ->
     request σ this (inr input) requestInit Env x
     = fetch σ this (new_Request ("http://localhost" +:+ mergePath "/" input)
                                 requestInit) Env x /\
     request σ this (inr ("http://localhost" +:+ mergePath "/" input))
             requestInit Env x
     = request σ this (inr input) requestInit Env x) /\
  (forall input,
     is_http_url input = true ->
     request σ this (inr input) requestInit Env x
     = fetch σ this (new_Request input requestInit) Env x) /\
  (forall r, request σ this (inl r) None Env x = fetch σ this r Env x) /\
  (forall r init, request σ this (inl r) (Some init) Env x
                  = fetch σ this (copy_Request r init) Env x) /\
  (forall r, fetch σ this r Env x = dispatch σ this r x Env (req_method r)) /\
  (forall r event, fire_listener σ this r event = fetch σ this r None (Some event)).
Proof.
  split.
  { intros input H. unfold request. rewrite H, is_http_url_localhost. by split. }
  split.
  { intros input H. unfold request. by rewrite H. }
  by repeat split.
Qed.

End Tables.

(** * The further properties on the sample applications *)

Section Examples.
#[local] Existing Instance url_model.
#[local] Existing Instance names_model.
#[local] Existing Instance platform_model.
#[local] Existing Instance list_router.
#[local] Existing Instance compose_model.

(** [app.on(['get', 'post'], '/x', hi)] *)
Lemma on_registers_witness :
  (inr ["get"; "post"] : string + list string) <> inl "" /\
  arrays (on 0%nat (inr ["get"; "post"]) (inl "/x") [hi] store_app).2
    !!! app_routes (apps store_app !!! 0%nat)
  = [mkRouterRoute "/x" "GET" hi; mkRouterRoute "/x" "POST" hi].
Proof.
  assert (Hne : (inr ["get"; "post"] : string + list string) <> inl "")
    by discriminate.
  split; [exact Hne|].
  destruct (on_registers store_app 0%nat (inr ["get"; "post"]) (inl "/x") [hi])
    as [_ H].
  destruct (H Hne) as (_ & _ & Harr & _).
  etransitivity; [exact Harr|]. vm_compute. reflexivity.
Defined.

(** [app.on('get', '/x', hi)] and [app.get('/x', hi)] *)
Lemma on_is_verb_witness :
  "get" <> "" /\
  on 0%nat (inl "get") (inl "/x") [hi] store_app
  = verb 0%nat "get" (inl "/x") [inr hi] store_app.
Proof.
  assert (Hne : "get" <> "") by discriminate.
  split; [exact Hne|].
  destruct (on_is_verb store_app 0%nat "get" "/x" [hi]) as [_ H].
  exact (H Hne).
Defined.

(** [app.use('/m', nothing)] and [app.all('/m', nothing)] *)
Lemma use_registers_witness :
  toUpperCase METHOD_NAME_ALL_LOWERCASE = toUpperCase METHOD_NAME_ALL /\
  use 0%nat (inl "/m") [nothing] store_app
  = verb 0%nat "all" (inl "/m") [inr nothing] store_app.
Proof.
  assert (Hall : toUpperCase METHOD_NAME_ALL_LOWERCASE = toUpperCase METHOD_NAME_ALL)
    by reflexivity.
  split; [exact Hall|].
  destruct (use_registers store_app 0%nat [nothing]) as (_ & _ & H).
  exact (H Hall "/m").
Defined.

(** The application after a registration, a derivation and a new error
    handler. *)
Lemma application_identity_fixed_witness :
  apps store_app !! 0%nat = Some (apps store_app !!! 0%nat) /\
  exists a',
    apps (steps [OpUse 0%nat (inl "/m") [nothing]; OpBasePath 0%nat "/api";
                 OpOnError 0%nat teapot] store_app) !! 0%nat = Some a' /\
    app_router a' = app_router (apps store_app !!! 0%nat) /\
    app_routes a' = app_routes (apps store_app !!! 0%nat) /\
    app_basePath a' = app_basePath (apps store_app !!! 0%nat) /\
    app_getPath a' = app_getPath (apps store_app !!! 0%nat).
Proof.
  assert (H0 : apps store_app !! 0%nat = Some (apps store_app !!! 0%nat))
    by (vm_compute; reflexivity).
  split; [exact H0|].
  exact (application_identity_fixed _ store_app 0%nat _ H0).
Defined.

(** [const api = app.basePath('/api'); api.get('/users', hi)]: the
    route is matched through [app] as through [api]. *)
Lemma derivative_matches_like_parent_witness :
  apps store_app !! 0%nat = Some (apps store_app !!! 0%nat) /\
  matchRoute
    (steps [OpVerb 1%nat "get" (inl "/users") [inr hi]]
           (basePath 0%nat "/api" store_app).2)
    0%nat "GET" "/api/users"
  = [((hi, mkRouterRoute "/api/users" "GET" hi), [])] /\
  matchRoute
    (steps [OpVerb 1%nat "get" (inl "/users") [inr hi]]
           (basePath 0%nat "/api" store_app).2)
    (basePath 0%nat "/api" store_app).1 "GET" "/api/users"
  = [((hi, mkRouterRoute "/api/users" "GET" hi), [])].
Proof.
  assert (H0 : apps store_app !! 0%nat = Some (apps store_app !!! 0%nat))
    by (vm_compute; reflexivity).
  split; [exact H0|].
  assert (Hm : matchRoute
                 (steps [OpVerb 1%nat "get" (inl "/users") [inr hi]]
                        (basePath 0%nat "/api" store_app).2)
                 0%nat "GET" "/api/users"
               = [((hi, mkRouterRoute "/api/users" "GET" hi), [])])
    by (vm_compute; reflexivity).
  split; [exact Hm|].
  destruct (derivative_matches_like_parent store_app 0%nat _ "/api"
              [OpVerb 1%nat "get" (inl "/users") [inr hi]] "GET" "/api/users" H0)
    as [E _].
  etransitivity; [exact E | exact Hm].
Defined.

(** [app.basePath('/api').basePath('/v1')] *)
Lemma basePath_nests_witness :
  apps store_app !! 0%nat = Some (apps store_app !!! 0%nat) /\
  app_basePath
    (apps (basePath (basePath 0%nat "/api" store_app).1 "/v1"
                    (basePath 0%nat "/api" store_app).2).2
     !!! (basePath (basePath 0%nat "/api" store_app).1 "/v1"
                   (basePath 0%nat "/api" store_app).2).1)
  = "/api/v1".
Proof.
  assert (H0 : apps store_app !! 0%nat = Some (apps store_app !!! 0%nat))
    by (vm_compute; reflexivity).
  split; [exact H0|].
  destruct (basePath_nests store_app 0%nat _ "/api" "/v1" H0) as [E _].
  etransitivity; [exact E|]. vm_compute. reflexivity.
Defined.

(** Grafting the sub-application of [store_sub]: its own table is as
    it was. *)
Lemma route_leaves_others_witness :
  apps store_sub !! 0%nat = Some (apps store_sub !!! 0%nat) /\
  apps store_sub !! 1%nat = Some (apps store_sub !!! 1%nat) /\
  is_Some (arrays store_sub !! app_routes (apps store_sub !!! 0%nat)) /\
  is_Some (arrays store_sub !! app_routes (apps store_sub !!! 1%nat)) /\
  app_routes (apps store_sub !!! 1%nat) <> app_routes (apps store_sub !!! 0%nat) /\
  arrays (route 0%nat "/api" (Some 1%nat) store_sub).2
    !! app_routes (apps store_sub !!! 1%nat)
  = Some [mkRouterRoute "/user" "GET" boom] /\
  apps (route 0%nat "/api" (Some 1%nat) store_sub).2 !! 1%nat
  = Some (apps store_sub !!! 1%nat).
Proof.
  assert (H0 : apps store_sub !! 0%nat = Some (apps store_sub !!! 0%nat))
    by (vm_compute; reflexivity).
  assert (H1 : apps store_sub !! 1%nat = Some (apps store_sub !!! 1%nat))
    by (vm_compute; reflexivity).
  assert (A0 : is_Some (arrays store_sub !! app_routes (apps store_sub !!! 0%nat)))
    by (vm_compute; eauto).
  assert (A1 : is_Some (arrays store_sub !! app_routes (apps store_sub !!! 1%nat)))
    by (vm_compute; eauto).
  assert (Hne : app_routes (apps store_sub !!! 1%nat)
                <> app_routes (apps store_sub !!! 0%nat))
    by (vm_compute; discriminate).
  do 5 (split; [assumption|]).
  destruct (route_leaves_others store_sub 0%nat 1%nat _ _ "/api" H0 H1 A0 A1)
    as (_ & Happs & _ & _ & Harr).
  split.
  - etransitivity; [exact (Harr _ A1 Hne)|]. vm_compute. reflexivity.
  - exact (Happs _ _ H1).
Defined.

(** A second application on the router of the first: a route of the
    new one is matched through the old one. *)
Lemma constructor_fresh_witness :
  app_router (apps store_hello !!! 0%nat) = 0%nat /\
  apps store_hello !! 0%nat = Some (apps store_hello !!! 0%nat) /\
  routers store_hello !! 0%nat
  = Some [("GET", "/hello", (hi, mkRouterRoute "/hello" "GET" hi))] /\
  matchRoute
    (addRoute (new_Hono (mkHonoOptions None 0%nat None) store_hello).1
              "get" "/new" hi
              (new_Hono (mkHonoOptions None 0%nat None) store_hello).2).2
    0%nat "GET" "/new"
  = [((hi, mkRouterRoute "/new" "GET" hi), [])].
Proof.
  assert (Hr : app_router (apps store_hello !!! 0%nat)
               = opt_router (mkHonoOptions None 0%nat None))
    by (vm_compute; reflexivity).
  assert (H0 : apps store_hello !! 0%nat = Some (apps store_hello !!! 0%nat))
    by (vm_compute; reflexivity).
  assert (Hrt : routers store_hello !! opt_router (mkHonoOptions None 0%nat None)
                = Some [("GET", "/hello", (hi, mkRouterRoute "/hello" "GET" hi))])
    by (vm_compute; reflexivity).
  split; [exact Hr|]. split; [exact H0|]. split; [exact Hrt|].
  destruct (constructor_fresh store_hello (mkHonoOptions None 0%nat None))
    as (_ & _ & _ & _ & Hmatch).
  etransitivity; [exact (Hmatch "get" "/new" hi 0%nat _ "GET" "/new" Hr H0 Hrt)|].
  vm_compute. reflexivity.
Defined.

(** [app.get('/idle', idle)]: the one handler is not async and returns
    nothing, and so does the dispatch. *)
Lemma dispatch_undefined_iff_witness :
  "GET" <> "HEAD" /\
  returnsPromise idle = false /\
  dispatch (verb 0%nat "get" (inl "/idle") [inr idle] store_app).2 0%nat
           (GET "http://localhost/idle") None None "GET"
  = Normal None.
Proof.
  assert (Hm : "GET" <> "HEAD") by discriminate.
  split; [exact Hm|]. split; [reflexivity|].
  apply (proj2 (dispatch_undefined_iff compose_model
                  (verb 0%nat "get" (inl "/idle") [inr idle] store_app).2 0%nat
                  (GET "http://localhost/idle") None None "GET")).
  split; [exact Hm|].
  exists idle, (mkRouterRoute "/idle" "GET" idle), [],
    (new_Context (mkHonoRequest (GET "http://localhost/idle") "/idle" [[]])
                 None None).
  split; [vm_compute; reflexivity|]. split; [reflexivity|].
  vm_compute. reflexivity.
Defined.

(** [app.onError(teapot).notFound(...)] and the calls the other way
    round. *)
Lemma handlers_installed_witness :
  apps store_app !! 0%nat = Some (apps store_app !!! 0%nat) /\
  (notFound 0%nat (fun _ => teapot_response) (onError 0%nat teapot store_app).2).2
  = (onError 0%nat teapot (notFound 0%nat (fun _ => teapot_response) store_app).2).2 /\
  dispatch_single
    (notFound 0%nat (fun _ => teapot_response) (onError 0%nat teapot store_app).2).2
    0%nat boom (context_of (GET "http://localhost/") "/")
  = Normal (Some teapot_response).
Proof.
  assert (H0 : apps store_app !! 0%nat = Some (apps store_app !!! 0%nat))
    by (vm_compute; reflexivity).
  split; [exact H0|].
  destruct (handlers_installed compose_model store_app 0%nat _ teapot
              (fun _ => teapot_response) H0)
    as (_ & Hcomm & _ & _ & _ & Herr & _).
  split; [exact Hcomm|].
  assert (Hexec :
    exec (error_handlers
            (notFound 0%nat (fun _ => teapot_response)
               (onError 0%nat teapot store_app).2).2)
         (single_next (CustomNotFoundHandler (fun _ => teapot_response)))
         (handler_body boom) (context_of (GET "http://localhost/") "/")
    = (Abrupt (ThrownError (mkError "boom" PlainError)),
       context_of (GET "http://localhost/") "/")) by reflexivity.
  etransitivity; [exact (Herr boom _ _ _ Hexec)|]. reflexivity.
Defined.


(** The sub-application of [store_sub] is grafted and then given a new
    error handler: the wrapper of its route answers with the new one. *)
Lemma wrapper_reads_handler_late_witness :
  apps store_sub !! 1%nat = Some (apps store_sub !!! 1%nat) /\
  exec (error_handlers
          (onError 1%nat (fun _ _ => ok "new")
             (route 0%nat "/api" (Some 1%nat) store_sub).2).2)
       no_next
       (handler_body (composed_handler 1%nat (mkRouterRoute "/user" "GET" boom)))
       (context_of (GET "http://localhost/api/user") "/api/user")
  = (Normal (Some (ok "new")),
     set_res (ok "new") (context_of (GET "http://localhost/api/user") "/api/user")).
Proof.
  assert (H1 : apps store_sub !! 1%nat = Some (apps store_sub !!! 1%nat))
    by (vm_compute; reflexivity).
  split; [exact H1|].
  destruct (wrapper_reads_handler_late store_sub 0%nat 1%nat _ "/api"
              (fun _ _ => ok "new") (mkRouterRoute "/user" "GET" boom) no_next
              (context_of (GET "http://localhost/api/user") "/api/user") H1)
    as [_ [Herr _]].
  exact (Herr (mkError "boom" PlainError) _ eq_refl).
Defined.

(** [new Hono({ router }); app.on('get', '/x', hi)] from the empty
    store. *)
Lemma route_methods_upper_witness :
  upper_methods empty_store /\
  upper_methods
    (steps [OpNew (mkHonoOptions None 0%nat None);
            OpOn 0%nat (inl "get") (inl "/x") [hi]] empty_store) /\
  arrays (steps [OpNew (mkHonoOptions None 0%nat None);
                 OpOn 0%nat (inl "get") (inl "/x") [hi]] empty_store) !! 0%nat
  = Some [mkRouterRoute "/x" "GET" hi].
Proof.
  assert (H : upper_methods empty_store).
  { intros a l r Hl. simpl in Hl. by rewrite lookup_empty in Hl. }
  split; [exact H|]. split; [|vm_compute; reflexivity].
  exact (route_methods_upper _ empty_store H).
Defined.

(** [app.request('/hello')] *)
Lemma entry_points_witness :
  is_http_url "/hello" = false /\
  request store_hello 0%nat (inr "/hello") None None None = Normal (Some (ok "hi")).
Proof.
  assert (H : is_http_url "/hello" = false) by reflexivity.
  split; [exact H|].
  destruct (entry_points store_hello 0%nat None None None) as [Hpath _].
  destruct (Hpath "/hello" H) as [E _].
  etransitivity; [exact E|]. vm_compute. reflexivity.
Defined.

End Examples.
